(** * CORE control plane: model configuration store and EMANE position events

    A shallow embedding of [daemon/core/config.py] (ConfigurableManager,
    ModelManager) and [daemon/core/emane/nodes.py] (EmaneNet), with the
    properties of the specification stated and proved over it.

    Python objects that are mutated in place and shared by reference (the
    per-model configuration dictionaries) live in an explicit heap; methods
    are computations in a state-and-exception monad in which a raised
    exception keeps the state reached so far, as in Python. *)

From Stdlib Require Import ZArith QArith Qround Qabs Lqa.
From stdpp Require Import gmap strings list fin_maps.

Set Default Proof Using "Type".

(** ** Exceptions and the method monad *)

(** The exceptions the two files can raise.  [ValueError] carries the
    constructor arguments as written in the source: the message and, where
    the source passes it as a second argument, the node id.  [KeyError] and
    [AttributeError] are what a failed [d[k]] and a method call on [None]
    would raise. *)
Inductive exn :=
  | ValueError (msg : string) (args : list Z)
  | KeyError (key : string)
  | AttributeError (msg : string).

(** A method body over instance state [St]: it returns a value or raises, and
    in both cases leaves a state behind. *)
Definition M (St A : Type) : Type := St → (exn + A) * St.

Definition ret {St A} (a : A) : M St A := λ s, (inr a, s).
Definition raise {St A} (e : exn) : M St A := λ s, (inl e, s).
Definition bind {St A B} (c : M St A) (k : A → M St B) : M St B :=
  λ s, match c s with
       | (inr a, s') => k a s'
       | (inl e, s') => (inl e, s')
       end.
Definition gets {St A} (f : St → A) : M St A := λ s, (inr (f s), s).
Definition modify {St} (f : St → St) : M St unit := λ s, (inr tt, f s).

Notation "'let!' x ':=' c 'in' k" := (bind c (λ x, k))
  (at level 10, x name, c at level 100, k at level 200).
Notation "c '>>>' k" := (bind c (λ _, k))
  (at level 100, k at level 200, right associativity).

(** [for x in l: body(x)] *)
Fixpoint for_each {St A} (l : list A) (body : A → M St unit) : M St unit :=
  match l with
  | [] => ret tt
  | x :: l' => body x >>> for_each l' body
  end.

(** ** Python dictionaries with insertion order

    [dict] and [OrderedDict] as the list of their items in insertion order.
    Lookup takes the first item with the key; item assignment overwrites the
    value in place when the key is present and appends otherwise, so a list
    without repeated keys stays without repeated keys. *)
Module OrderedDict.
Abbreviation t K V := (list (K * V)).

Section ops.
Context {K V : Type} `{EqDecision K}.

(** [d.get(k)] *)
Fixpoint get (k : K) (d : t K V) : option V :=
  match d with
  | [] => None
  | (k', v) :: d' => if decide (k' = k) then Some v else get k d'
  end.

(** [d[k] = v] *)
Fixpoint setitem (k : K) (v : V) (d : t K V) : t K V :=
  match d with
  | [] => [(k, v)]
  | (k', v') :: d' =>
      if decide (k' = k) then (k, v) :: d' else (k', v') :: setitem k v d'
  end.

(** [OrderedDict(pairs)] *)
Definition of_pairs (pairs : list (K * V)) : t K V :=
  fold_left (λ d kv, setitem kv.1 kv.2 d) pairs [].

(** [list(d)]: the keys in iteration order *)
Definition keys (d : t K V) : list K := d.*1.

(** truth value of a dictionary: non-empty *)
Definition truthy (d : t K V) : bool :=
  match d with [] => false | _ :: _ => true end.
End ops.
End OrderedDict.

Abbreviation odict := (OrderedDict.t string string).

(** ** Declarations the two files import *)

(** Modelled from the spec: the enumeration [ConfigDataTypes] of
    [core.emulator.enumerations] is not among the sources; the declared type
    of an option is one of boolean, signed or unsigned integer tagged with
    its width, float, string, or enumerated choice.  It is advisory only. *)
Inductive ConfigDataTypes :=
  | BOOL | INT (width : N) | UINT (width : N) | FLOAT | STRING | CHOICE.

(** Modelled from the spec: the enumeration [RegisterTlvs] of
    [core.emulator.enumerations] is not among the sources; a model's role is
    radio medium ([WIRELESS]), mobility ([MOBILITY]), or any other role. *)
Inductive RegisterTlvs :=
  | WIRELESS | MOBILITY | OTHER_TLV (code : Z).

Global Instance RegisterTlvs_eq_dec : EqDecision RegisterTlvs.
Proof. solve_decision. Defined.

(** class [Configuration] *)
Module Configuration.
Record t := mk {
  id : string;
  type : ConfigDataTypes;
  default : string;
  options : list string;
  label : string;
}.

(** [Configuration.__init__]: falsy [options] become the empty list, a
    falsy [label] becomes the id. *)
Definition init (_id : string) (_type : ConfigDataTypes)
    (label : option string) (default : string)
    (options : option (list string)) : t :=
  let options :=
    match options with
    | Some (o :: os) => o :: os
    | _ => []
    end in
  let label :=
    match label with
    | Some (String a l) => String a l
    | _ => _id
    end in
  mk _id _type default options label.
End Configuration.

(** A model class: [ConfigurableOptions] with the [config_type] role tag that
    [WirelessModel] subclasses declare. *)
Module ConfigurableOptions.
Record t := mk {
  name : string;
  config_type : RegisterTlvs;
  options : list Configuration.t;
}.

(** [configurations] *)
Definition configurations (cls : t) : list Configuration.t := options cls.

(** [default_values]: a new ordered dictionary on every call *)
Definition default_values (cls : t) : odict :=
  OrderedDict.of_pairs
    ((λ config, (Configuration.id config, Configuration.default config))
       <$> configurations cls).
End ConfigurableOptions.

Abbreviation WirelessModelType := ConfigurableOptions.t.

(** * [core/config.py]: ConfigurableManager and ModelManager *)
Module Config.

(** References to the configuration dictionaries, which are shared and
    mutated in place. *)
Abbreviation loc := positive.

(** A [config_type] key is a model name, or the integer sentinel. *)
Abbreviation type_key := (Z + string)%type.

Definition _default_node : Z := (-1)%Z.
Definition _default_type : type_key := inl _default_node.

(** The instance state of a [ModelManager] (which extends
    [ConfigurableManager]), with the heap of the dictionaries it refers to.
    [node_configurations], its per-node dictionaries, [models] and
    [node_models] are finite maps: the methods below do not depend on their
    iteration order. *)
Record ModelManager := mk {
  heap : gmap loc odict;
  node_configurations : gmap Z (gmap type_key loc);
  models : gmap string WirelessModelType;
  node_models : gmap Z string;
}.

(** [ModelManager.__init__] *)
Definition init : ModelManager := mk ∅ ∅ ∅ ∅.

Definition with_heap (f : gmap loc odict → gmap loc odict)
    (s : ModelManager) : ModelManager :=
  mk (f (heap s)) (node_configurations s) (models s) (node_models s).
Definition with_node_configurations
    (f : gmap Z (gmap type_key loc) → gmap Z (gmap type_key loc))
    (s : ModelManager) : ModelManager :=
  mk (heap s) (f (node_configurations s)) (models s) (node_models s).
Definition with_node_models (f : gmap Z string → gmap Z string)
    (s : ModelManager) : ModelManager :=
  mk (heap s) (node_configurations s) (models s) (f (node_models s)).

(** A new dictionary object holding [d]. *)
Definition alloc (d : odict) : M ModelManager loc :=
  λ s, let r := fresh (dom (heap s)) in (inr r, with_heap <[r := d]> s).

(** Truth value of an [Optional[Dict]]: [None] and the empty dictionary are
    falsy.  A reference always denotes a live object (see [heap_closed]
    below); the last case is there to make the function total. *)
Definition truthy_config (config : option loc) : M ModelManager bool :=
  gets (λ s,
    match config with
    | None => false
    | Some r =>
        match heap s !! r with
        | Some d => OrderedDict.truthy d
        | None => false
        end
    end).

(** [config_reset]: [not node_id] holds for [None] and for the id 0. *)
Definition config_reset (node_id : option Z) : M ModelManager unit :=
  match node_id with
  | None => modify (with_node_configurations (λ _, ∅))
  | Some n =>
      if decide (n = 0%Z) then modify (with_node_configurations (λ _, ∅))
      else
        let! present := gets (λ s, bool_decide (n ∈ dom (node_configurations s))) in
        if present then modify (with_node_configurations (delete n))
        else ret tt
  end.

(** [set_configs]: the dictionary [config] itself is stored, not a copy. *)
Definition set_configs (config : loc) (node_id : Z) (config_type : type_key)
    : M ModelManager unit :=
  modify (with_node_configurations (λ ncs,
    let node_configs := default ∅ (ncs !! node_id) in
    <[node_id := <[config_type := config]> node_configs]> ncs)).

(** [get_configs] *)
Definition get_configs (node_id : Z) (config_type : type_key)
    : M ModelManager (option loc) :=
  gets (λ s,
    match node_configurations s !! node_id with
    | Some node_configs =>
        if bool_decide (node_configs ≠ ∅) then node_configs !! config_type
        else None
    | None => None
    end).

(** [get_model_config] *)
Definition get_model_config (node_id : Z) (model_name : string)
    : M ModelManager loc :=
  let! model_class := gets (λ s, models s !! model_name) in
  match model_class with
  | None => raise (ValueError (model_name +:+ " is an invalid model") [])
  | Some model_class =>
      let! config := get_configs node_id (inr model_name) in
      let! filled := truthy_config config in
      match config, filled with
      | Some config, true => ret config
      | _, _ =>
          let! config := alloc (ConfigurableOptions.default_values model_class) in
          set_configs config node_id (inr model_name) >>>
          ret config
      end
  end.

(** [model_config[key] = value] on the dictionary object at [model_config] *)
Definition setitem_at (model_config : loc) (key value : string)
    : M ModelManager unit :=
  modify (with_heap (alter (OrderedDict.setitem key value) model_config)).

(** [set_model_config]; [config] is [None] when the argument is left out. *)
Definition set_model_config (node_id : Z) (model_name : string)
    (config : option odict) : M ModelManager unit :=
  let! model_class := gets (λ s, models s !! model_name) in
  match model_class with
  | None => raise (ValueError (model_name +:+ " is an invalid model") [])
  | Some model_class =>
      let! model_config := get_model_config node_id model_name in
      let config :=
        match config with
        | Some (kv :: config') => kv :: config'
        | _ => []
        end in
      for_each (OrderedDict.keys config) (λ key,
        match OrderedDict.get key config with
        | Some value => setitem_at model_config key value
        | None => raise (KeyError key)
        end) >>>
      modify (with_node_models <[node_id := model_name]>) >>>
      set_configs model_config node_id (inr model_name)
  end.

(** [set_config]: both levels are created when missing, and the value is
    assigned into the stored dictionary in place. *)
Definition set_config (_id value : string) (node_id : Z)
    (config_type : type_key) : M ModelManager unit :=
  modify (with_node_configurations (λ ncs,
    <[node_id := default ∅ (ncs !! node_id)]> ncs)) >>>
  let! existing :=
    gets (λ s, default ∅ (node_configurations s !! node_id) !! config_type) in
  let! node_type_configs :=
    match existing with
    | Some node_type_configs => ret node_type_configs
    | None =>
        let! node_type_configs := alloc [] in
        modify (with_node_configurations (λ ncs,
          <[node_id := <[config_type := node_type_configs]>
                         (default ∅ (ncs !! node_id))]> ncs)) >>>
        ret node_type_configs
    end in
  setitem_at node_type_configs _id value.

(** [get_config]; [default] is [None] when the argument is left out. *)
Definition get_config (_id : string) (node_id : Z) (config_type : type_key)
    (default : option string) : M ModelManager (option string) :=
  let result := default in
  let! node_type_configs := get_configs node_id config_type in
  let! filled := truthy_config node_type_configs in
  match node_type_configs, filled with
  | Some node_type_configs, true =>
      gets (λ s,
        match heap s !! node_type_configs ≫= OrderedDict.get _id with
        | Some value => Some value
        | None => default
        end)
  | _, _ => ret result
  end.

(** [get_all_configs] *)
Definition get_all_configs (node_id : Z)
    : M ModelManager (option (gmap type_key loc)) :=
  gets (λ s, node_configurations s !! node_id).

End Config.

(** * [core/emane/nodes.py]: EmaneNet *)
Module Nodes.

(** Modelled from the spec: the position record of a node
    ([core.nodes.base], not among the sources) holds the current Cartesian
    coordinates and an optional explicit altitude.  A finite float is the
    rational number it denotes. *)
Record Position := mkPosition {
  x : Q;
  y : Q;
  z : Q;
  alt : option Q;
}.

(** Modelled from the spec: the node that owns an interface, with its
    current position. *)
Record CoreNode := mkCoreNode {
  node_id : Z;
  position : Position;
}.

(** [node.getposition()] *)
Definition getposition (node : CoreNode) : Q * Q * Q :=
  (x (position node), y (position node), z (position node)).

(** Modelled from the spec: an interface object ([core.nodes.interface], not
    among the sources) exposes its owning node and a local name.  Interfaces
    are dictionary keys by object identity, which [handle] stands for. *)
Record CoreInterface := mkCoreInterface {
  handle : nat;
  localname : string;
  node : CoreNode;
}.

(** One entry of a [LocationEvent], as [event.append] records it. *)
Record LocationEntry := mkLocationEntry {
  nem : Z;
  latitude : Q;
  longitude : Q;
  altitude : Z;
}.

(** Modelled from the spec: a position event ([emane.events.LocationEvent],
    not among the sources) is the ordered sequence of its entries. *)
Abbreviation LocationEvent := (list LocationEntry).

(** [event.append(nemid, latitude=lat, longitude=lon, altitude=alt)] *)
Definition append (event : LocationEvent) (nemid : Z) (lat lon : Q) (alt : Z)
    : LocationEvent :=
  event ++ [mkLocationEntry nemid lat lon alt].

(** Modelled from the spec: the event service is a sink with a publish
    operation; it is represented by the calls [publish(channel, event)] it has
    received, oldest first. *)
Abbreviation EventService := (list (Z * LocationEvent)).

(** What a node uses of its session: [session.emane.service], which is
    [None] when no event service is available, and the geo converter
    [session.location.getgeo], a function from (x, y, z) to (lat, lon, alt). *)
Record Session := mkSession {
  service : option EventService;
  getgeo : Q → Q → Q → Q * Q * Q;
}.

(** The calls an attached model object receives from the node. *)
Inductive ModelCall :=
  | update_config (config : odict)
  | set_configs (config : odict) (node_id : Z).

(** Modelled from the spec: a model instance ([core.location.mobility], not
    among the sources) is constructed from its class bound to a node id and
    the session; it is represented by its class, that id and the calls it has
    received, oldest first. *)
Record WirelessModel := mkWirelessModel {
  cls : WirelessModelType;
  _id : Z;
  calls : list ModelCall;
}.

(** [model(session=self.session, _id=self.id)] *)
Definition new_model (model : WirelessModelType) (_id : Z) : WirelessModel :=
  mkWirelessModel model _id [].

Definition call (c : ModelCall) (m : WirelessModel) : WirelessModel :=
  mkWirelessModel (cls m) (_id m) (calls m ++ [c]).

(** The instance state of an [EmaneNet]. *)
Record EmaneNet := mk {
  session : Session;
  id : Z;
  nemidmap : OrderedDict.t nat Z;
  model : option WirelessModel;
  mobility : option WirelessModel;
}.

Definition with_model (f : option WirelessModel → option WirelessModel)
    (self : EmaneNet) : EmaneNet :=
  mk (session self) (id self) (nemidmap self) (f (model self)) (mobility self).
Definition with_mobility (f : option WirelessModel → option WirelessModel)
    (self : EmaneNet) : EmaneNet :=
  mk (session self) (id self) (nemidmap self) (model self) (f (mobility self)).
Definition with_nemidmap (f : OrderedDict.t nat Z → OrderedDict.t nat Z)
    (self : EmaneNet) : EmaneNet :=
  mk (session self) (id self) (f (nemidmap self)) (model self) (mobility self).
Definition with_service (f : option EventService → option EventService)
    (self : EmaneNet) : EmaneNet :=
  mk (mkSession (f (service (session self))) (getgeo (session self)))
     (id self) (nemidmap self) (model self) (mobility self).

(** Python's [int(round(v))] on a finite number: the nearest integer, a tie
    going to the even neighbour. *)
Definition py_round (v : Q) : Z :=
  let f := Qfloor v in
  match (v - inject_Z f ?= 1 # 2)%Q with
  | Lt => f
  | Gt => (f + 1)%Z
  | Eq => if Z.even f then f else (f + 1)%Z
  end.

(** [updatemodel]; a model object is truthy, so [not self.model] tests for
    [None]. *)
Definition updatemodel (config : odict) : M EmaneNet unit :=
  let! model := gets model in
  match model with
  | None =>
      let! id := gets id in
      raise (ValueError "no model set to update for node(%s)" [id])
  | Some _ =>
      let! id := gets id in
      modify (with_model (fmap (call (set_configs config id))))
  end.

(** [setmodel] *)
Definition setmodel (model : WirelessModelType) (config : odict)
    : M EmaneNet unit :=
  if decide (ConfigurableOptions.config_type model = WIRELESS) then
    let! id := gets id in
    modify (with_model (λ _, Some (new_model model id))) >>>
    modify (with_model (fmap (call (update_config config))))
  else if decide (ConfigurableOptions.config_type model = MOBILITY) then
    let! id := gets id in
    modify (with_mobility (λ _, Some (new_model model id))) >>>
    modify (with_mobility (fmap (call (update_config config))))
  else ret tt.

(** [setnemid] *)
Definition setnemid (netif : CoreInterface) (nemid : Z) : M EmaneNet unit :=
  modify (with_nemidmap (OrderedDict.setitem (handle netif) nemid)).

(** [getnemid] *)
Definition getnemid (self : EmaneNet) (netif : CoreInterface) : option Z :=
  OrderedDict.get (handle netif) (nemidmap self).

(** [_nem_position]: reads the node only. *)
Definition _nem_position (self : EmaneNet) (netif : CoreInterface)
    : option (Z * Q * Q * Z) :=
  let nemid := getnemid self netif in
  match nemid with
  | None => None
  | Some nemid =>
      let node := node netif in
      let '(x, y, z) := getposition node in
      let '(lat, lon, alt) := getgeo (session self) x y z in
      let alt :=
        match Nodes.alt (position node) with
        | Some a => a
        | None => alt
        end in
      let alt := py_round alt in
      Some (nemid, lon, lat, alt)
  end.

(** [self.session.emane.service.publish(channel, event)] *)
Definition publish (channel : Z) (event : LocationEvent) : M EmaneNet unit :=
  let! service := gets (λ self, service (session self)) in
  match service with
  | None => raise (AttributeError "'NoneType' object has no attribute 'publish'")
  | Some _ => modify (with_service (fmap (λ received, received ++ [(channel, event)])))
  end.

(** [setnemposition]; a position tuple is truthy, so [if position] tests for
    [None]. *)
Definition setnemposition (netif : CoreInterface) : M EmaneNet unit :=
  let! service := gets (λ self, service (session self)) in
  match service with
  | None => ret tt
  | Some _ =>
      let! position := gets (λ self, _nem_position self netif) in
      match position with
      | Some (nemid, lon, lat, alt) =>
          let event : LocationEvent := [] in
          let event := append event nemid lat lon alt in
          publish 0 event
      | None => ret tt
      end
  end.

(** [setnempositions]; the event is built locally from the state of the node
    and published once, after the loop. *)
Definition setnempositions (moved_netifs : list CoreInterface)
    : M EmaneNet unit :=
  if decide (length moved_netifs = 0%nat) then ret tt
  else
    let! service := gets (λ self, service (session self)) in
    match service with
    | None => ret tt
    | Some _ =>
        let! self := gets (λ self, self) in
        let event : LocationEvent :=
          fold_left (λ event netif,
            match _nem_position self netif with
            | Some (nemid, lon, lat, alt) => append event nemid lat lon alt
            | None => event
            end) moved_netifs [] in
        publish 0 event
    end.

(** [getnemnetif]: the first interface, in the order of the map, whose id is
    [nemid]. *)
Fixpoint first_with_nemid (nemidmap : OrderedDict.t nat Z)
    (netifs : list nat) (nemid : Z) : option nat :=
  match netifs with
  | [] => None
  | netif :: netifs' =>
      if decide (OrderedDict.get netif nemidmap = Some nemid) then Some netif
      else first_with_nemid nemidmap netifs' nemid
  end.

Definition getnemnetif (self : EmaneNet) (nemid : Z) : option nat :=
  first_with_nemid (nemidmap self) (OrderedDict.keys (nemidmap self)) nemid.

End Nodes.

(** * [core/config.py]: ModelManager.set_model, for an [EmaneNet] node *)
Module Models.

(** The manager and the node the call is made with. *)
Abbreviation World := (Config.ModelManager * Nodes.EmaneNet)%type.

Definition on_manager {A} (c : M Config.ModelManager A) : M World A :=
  λ w, let '(r, s) := c w.1 in (r, (s, w.2)).

Definition on_node {A} (c : M Nodes.EmaneNet A) : M World A :=
  λ w, let '(r, node) := c w.2 in (r, (w.1, node)).

(** [set_model]: the dictionary [get_model_config] returns is handed to the
    node; the model receives it with the contents it has at that moment. *)
Definition set_model (model_class : WirelessModelType)
    (config : option odict) : M World unit :=
  let! node_id := gets (λ w : World, Nodes.id w.2) in
  on_manager
    (Config.set_model_config node_id
       (ConfigurableOptions.name model_class) config) >>>
  let! config :=
    on_manager
      (Config.get_model_config node_id
         (ConfigurableOptions.name model_class)) in
  let! config := gets (λ w : World, default [] (Config.heap w.1 !! config)) in
  on_node (Nodes.setmodel model_class config).

End Models.

(** * [core/gui/widgets.py]: the values of a ConfigFrame

    The widgets a frame draws are not modelled; its state here is the
    dictionary of options it edits and the contents of the string variable it
    keeps for each option.  Every key of the dictionary holds an option
    message of its own, and every name a variable of its own. *)
Module Widgets.
Section config_frame.

(** The enumeration [core_pb2.ConfigOptionType] is not among the sources: it
    is a parameter, with its member [BOOL]. *)
Context (ConfigOptionType : Type) `{EqDecision ConfigOptionType}.
Context (BOOL : ConfigOptionType).

(** The fields of a [common_pb2.ConfigOption] message that the frame uses. *)
Record ConfigOption := mkConfigOption {
  label : string;
  name : string;
  value : string;
  type : ConfigOptionType;
  select : list string;
  group : string;
}.

(** [option.value = v] *)
Definition set_value (v : string) (option : ConfigOption) : ConfigOption :=
  mkConfigOption (label option) (name option) v (type option) (select option)
    (group option).

(** [self.config] and, for [self.values], the contents of each variable. *)
Record ConfigFrame := mkConfigFrame {
  config : OrderedDict.t string ConfigOption;
  values : OrderedDict.t string string;
}.

Definition with_config
    (f : OrderedDict.t string ConfigOption → OrderedDict.t string ConfigOption)
    (self : ConfigFrame) : ConfigFrame :=
  mkConfigFrame (f (config self)) (values self).
Definition with_values
    (f : OrderedDict.t string string → OrderedDict.t string string)
    (self : ConfigFrame) : ConfigFrame :=
  mkConfigFrame (config self) (f (values self)).

(** [d[key]], which raises [KeyError] for a missing key *)
Definition getitem {V} (key : string) (d : OrderedDict.t string V)
    : M ConfigFrame V :=
  match OrderedDict.get key d with
  | Some v => ret v
  | None => raise (KeyError key)
  end.

(** The body of the loop of [parse_config], for one key. *)
Definition parse_key (key : string) : M ConfigFrame unit :=
  let! config := gets config in
  let! option := getitem key config in
  let! values := gets values in
  let! value := getitem key values in
  let config_value := value in
  if decide (type option = BOOL) then
    if decide (config_value = "On") then
      modify (with_config (OrderedDict.setitem key (set_value "1" option)))
    else
      modify (with_config (OrderedDict.setitem key (set_value "0" option)))
  else
    modify
      (with_config (OrderedDict.setitem key (set_value config_value option))).

(** [parse_config] *)
Definition parse_config : M ConfigFrame (OrderedDict.t string string) :=
  let! keys := gets (λ self, OrderedDict.keys (config self)) in
  for_each keys parse_key >>>
  gets (λ self,
    OrderedDict.of_pairs
      (omap (λ x, (λ option, (x, value option))
                    <$> OrderedDict.get x (config self))
         (OrderedDict.keys (config self)))).

(** [self.config], for where an argument of the same name hides it *)
Definition self_config (self : ConfigFrame)
    : OrderedDict.t string ConfigOption :=
  config self.

(** The body of the loop of [set_values], for one item. *)
Definition set_item (item : string * string) : M ConfigFrame unit :=
  let '(name, data) := item in
  let! options := gets self_config in
  let! option := getitem name options in
  let! values := gets values in
  let! value := getitem name values in
  let data :=
    if decide (type option = BOOL) then
      if decide (data = "1") then "On" else "Off"
    else data in
  modify (with_values (OrderedDict.setitem name data)).

(** [set_values] *)
Definition set_values (config : odict) : M ConfigFrame unit :=
  for_each config set_item.

End config_frame.

(** [sorted(l, key=key)] for string keys: a stable sort, each element being
    put behind the elements already placed whose key is not greater. *)
Fixpoint insert_sorted {A} (key : A → string) (x : A) (l : list A) : list A :=
  match l with
  | [] => [x]
  | y :: l' =>
      if String.ltb (key x) (key y) then x :: y :: l'
      else y :: insert_sorted key x l'
  end.

Definition sorted {A} (key : A → string) (l : list A) : list A :=
  fold_left (λ placed x, insert_sorted key x placed) l [].

Section draw_config.

(** The other members of [core_pb2.ConfigOptionType] that the frame names,
    parameters as [BOOL] is. *)
Context (ConfigOptionType : Type) `{EqDecision ConfigOptionType}.
Context (BOOL STRING FLOAT : ConfigOptionType).
Context (UINT8 UINT16 UINT32 UINT64 INT8 INT16 INT32 INT64 : ConfigOptionType).

(** [INT_TYPES] *)
Definition INT_TYPES : list ConfigOptionType :=
  [UINT8; UINT16; UINT32; UINT64; INT8; INT16; INT32; INT64].

(** The contents [draw_config] gives the variable of an option; the variable
    of an option of a type it does not handle stays empty. *)
Definition initial_content (option : ConfigOption ConfigOptionType) : string :=
  if decide (type _ option = BOOL) then
    if decide (value _ option = "1") then "On" else "Off"
  else if bool_decide (select _ option ≠ []) then value _ option
  else if decide (type _ option = STRING) then value _ option
  else if decide (type _ option ∈ INT_TYPES) then value _ option
  else if decide (type _ option = FLOAT) then value _ option
  else "".

(** The first loop of [draw_config]: the options by group. *)
Definition group_options
    (config : OrderedDict.t string (ConfigOption ConfigOptionType))
    : OrderedDict.t string (list (ConfigOption ConfigOptionType)) :=
  fold_left (λ group_mapping key,
    match OrderedDict.get key config with
    | Some option =>
        let group_name := group _ option in
        let group :=
          default [] (OrderedDict.get group_name group_mapping) in
        OrderedDict.setitem group_name (group ++ [option]) group_mapping
    | None => group_mapping
    end) (OrderedDict.keys config) [].

(** [draw_config], as far as the variables go: one new variable per option,
    stored under the name of the option, group by group in the order of the
    group names and, within a group, in the order of the option names. *)
Definition draw_config : M (ConfigFrame ConfigOptionType) unit :=
  let! config := gets (config _) in
  let group_mapping := group_options config in
  for_each (sorted id (OrderedDict.keys group_mapping)) (λ group_name,
    let! group := getitem _ group_name group_mapping in
    for_each (sorted (name _) group) (λ option,
      let value := initial_content option in
      modify (with_values _ (OrderedDict.setitem (name _ option) value)))).

End draw_config.

Global Arguments mkConfigOption {_} _ _ _ _ _ _.
Global Arguments label {_} _.
Global Arguments name {_} _.
Global Arguments value {_} _.
Global Arguments type {_} _.
Global Arguments select {_} _.
Global Arguments group {_} _.
Global Arguments set_value {_} _ _.
Global Arguments mkConfigFrame {_} _ _.
Global Arguments config {_} _.
Global Arguments values {_} _.
Global Arguments with_config {_} _ _.
Global Arguments with_values {_} _ _.
Global Arguments parse_key {_ _} _ _ _.
Global Arguments set_item {_ _} _ _ _.
Global Arguments parse_config {_ _} _ _.
Global Arguments set_values {_ _} _ _ _.
Global Arguments INT_TYPES {_} _ _ _ _ _ _ _ _.
Global Arguments initial_content {_ _} _ _ _ _ _ _ _ _ _ _ _ _.
Global Arguments group_options {_} _.
Global Arguments draw_config {_ _} _ _ _ _ _ _ _ _ _ _ _ _.
End Widgets.

(** * Specification-side definitions *)

(** ** For [ModelManager] *)

(** The dictionary object stored for a node and a configuration type, and
    its contents. *)
Definition stored_ref (s : Config.ModelManager) (node_id : Z)
    (config_type : Config.type_key) : option Config.loc :=
  node_configs ← Config.node_configurations s !! node_id;
  node_configs !! config_type.

Definition stored_config (s : Config.ModelManager) (node_id : Z)
    (model_name : string) : option odict :=
  config ← stored_ref s node_id (inr model_name);
  Config.heap s !! config.

(** The configuration a call works from: the stored one, or the default
    values of the model when nothing, or an empty dictionary, is stored. *)
Definition current_or_default (cls : WirelessModelType)
    (stored : option odict) : odict :=
  match stored with
  | Some (kv :: d) => kv :: d
  | _ => ConfigurableOptions.default_values cls
  end.

(** [d] with the items of [config] assigned into it, in the order of
    [config]. *)
Definition merged (config d : odict) : odict :=
  fold_left (λ d key,
    match OrderedDict.get key config with
    | Some value => OrderedDict.setitem key value d
    | None => d
    end) (OrderedDict.keys config) d.

(** The value of [key] after the override maps [configs], given in call
    order, are laid over [defaults]: the value from the latest call that
    supplies the key, and the default value when no call supplies it.  A call
    made without an override map supplies nothing. *)
Definition overridden (defaults : odict) (configs : list (option odict))
    (key : string) : option string :=
  match omap (λ config, OrderedDict.get key (default [] config))
          (reverse configs) with
  | value :: _ => Some value
  | [] => OrderedDict.get key defaults
  end.

(** The default values with the override maps laid over them one after the
    other, in call order. *)
Definition overlay (defaults : odict) (configs : list (option odict))
    : odict :=
  fold_left (λ d config, merged (default [] config) d) configs defaults.

(** The manager after the dictionary [r] is stored for a node and a
    configuration type. *)
Definition stored_at (r : Config.loc) (node_id : Z)
    (config_type : Config.type_key) (s : Config.ModelManager)
    : Config.ModelManager :=
  (Config.set_configs r node_id config_type s).2.

(** Every stored reference is a live dictionary object. *)
Definition heap_closed (s : Config.ModelManager) : Prop :=
  ∀ node_id config_type r,
    stored_ref s node_id config_type = Some r → is_Some (Config.heap s !! r).

(** The stored configurations by value: for every node and configuration
    type, the contents of the dictionary stored there. *)
Definition contents (s : Config.ModelManager)
    : gmap Z (gmap Config.type_key (option odict)) :=
  (λ node_configs : gmap Config.type_key Config.loc,
     (λ r, Config.heap s !! r) <$> node_configs)
  <$> Config.node_configurations s.

(** [k + 1] calls of [c] in a row; the result is that of the last call. *)
Definition in_a_row {St A} (k : nat) (c : M St A) : M St A :=
  Nat.iter k (λ rest, c >>> rest) c.

(** ** For [EmaneNet] *)

(** The entry published for a resolved position tuple
    (nemid, lon, lat, alt). *)
Definition entry_of (position : Z * Q * Q * Z) : Nodes.LocationEntry :=
  let '(nemid, lon, lat, alt) := position in
  Nodes.mkLocationEntry nemid lat lon alt.

(** The entries of a batch: the resolved positions of the interfaces, in the
    order of the list, the unresolved ones left out. *)
Definition resolved_entries (self : Nodes.EmaneNet)
    (netifs : list Nodes.CoreInterface) : list Nodes.LocationEntry :=
  omap (λ netif, entry_of <$> Nodes._nem_position self netif) netifs.

(** The altitude a position resolves to before rounding: the explicit
    altitude of the node when it declares one, the converted one otherwise. *)
Definition resolved_altitude (self : Nodes.EmaneNet)
    (netif : Nodes.CoreInterface) : Q :=
  let node := Nodes.node netif in
  match Nodes.alt (Nodes.position node) with
  | Some a => a
  | None =>
      (Nodes.getgeo (Nodes.session self)
         (Nodes.x (Nodes.position node)) (Nodes.y (Nodes.position node))
         (Nodes.z (Nodes.position node))).2
  end.

(** The calls the sink has received; none when there is no sink. *)
Definition sink_calls (self : Nodes.EmaneNet) : Nodes.EventService :=
  default [] (Nodes.service (Nodes.session self)).

(** ** For the further properties *)

(** The contents of the dictionary stored for a node and a configuration
    type of any kind. *)
Definition stored_dict (s : Config.ModelManager) (node_id : Z)
    (config_type : Config.type_key) : option odict :=
  config ← stored_ref s node_id config_type;
  Config.heap s !! config.

(** What [parse_config] makes of the contents of the variable of an option,
    and what [set_values] puts into the variable for a value. *)
Definition parsed {T} `{EqDecision T} (BOOL : T)
    (option : Widgets.ConfigOption T) (content : string) : string :=
  if decide (Widgets.type option = BOOL) then
    if decide (content = "On") then "1" else "0"
  else content.

Definition shown {T} `{EqDecision T} (BOOL : T)
    (option : Widgets.ConfigOption T) (data : string) : string :=
  if decide (Widgets.type option = BOOL) then
    if decide (data = "1") then "On" else "Off"
  else data.

(** An option type for the examples, and a frame with a boolean option, a
    text option and an option of a type the frame does not handle; the
    variables of the first two have been edited. *)
Inductive example_type :=
  | EX_NONE | EX_UINT8 | EX_UINT16 | EX_UINT32 | EX_UINT64
  | EX_INT8 | EX_INT16 | EX_INT32 | EX_INT64 | EX_FLOAT | EX_STRING | EX_BOOL.

Global Instance example_type_eq_dec : EqDecision example_type.
Proof. solve_decision. Defined.

Definition example_frame : Widgets.ConfigFrame example_type :=
  Widgets.mkConfigFrame
    [("enabled", Widgets.mkConfigOption "Enabled" "enabled" "true" EX_BOOL []
                   "Options");
     ("script", Widgets.mkConfigOption "Script file" "script" "" EX_STRING []
                  "Options");
     ("legacy", Widgets.mkConfigOption "Legacy" "legacy" "7" EX_NONE []
                  "Advanced")]
    [("enabled", "On"); ("script", "run.sh"); ("legacy", "")].

(** The same options before anything is drawn. *)
Definition example_frame_new : Widgets.ConfigFrame example_type :=
  Widgets.with_values (λ _, []) example_frame.

(** * Example data *)

(** A radio model class with one option, as in the specification. *)
Definition basic_range : WirelessModelType :=
  ConfigurableOptions.mk "basic-range" WIRELESS
    [Configuration.init "range" (UINT 32) None "275" None].

(** A model class whose role is neither radio medium nor mobility. *)
Definition utility_model : WirelessModelType :=
  ConfigurableOptions.mk "utility" (OTHER_TLV 3) [].

(** A manager with the model [basic_range] registered and nothing stored. *)
Definition example_manager : Config.ModelManager :=
  Config.mk ∅ ∅ {[ "basic-range" := basic_range ]} ∅.

(** The state after configuring the range of nodes 0 and 1. *)
Definition example_store : Config.ModelManager :=
  (for_each [0%Z; 1%Z]
     (λ node_id,
        Config.set_model_config node_id "basic-range" (Some [("range", "400")]))
     example_manager).2.

(** The scenario of the specification: node 7 has the interfaces A, with
    NEM id 10, and B, with no NEM id; the geo converter yields latitude 2.0,
    longitude 1.0 and altitude 3.4. *)
Definition example_getgeo (x y z : Q) : Q * Q * Q := (2, 1, 34 # 10)%Q.

Definition netif_A : Nodes.CoreInterface :=
  Nodes.mkCoreInterface 0 "tapA"
    (Nodes.mkCoreNode 1 (Nodes.mkPosition 100 200 0 None)).

Definition netif_B : Nodes.CoreInterface :=
  Nodes.mkCoreInterface 1 "tapB"
    (Nodes.mkCoreNode 2 (Nodes.mkPosition 300 400 0 None)).

Definition example_net : Nodes.EmaneNet :=
  Nodes.mk (Nodes.mkSession (Some []) example_getgeo) 7 [(0%nat, 10%Z)]
    None None.

(** The same node after B is given the NEM id 11. *)
Definition example_net_both : Nodes.EmaneNet :=
  (Nodes.setnemid netif_B 11 example_net).2.

(** The same node with no event service. *)
Definition example_net_no_service : Nodes.EmaneNet :=
  Nodes.with_service (λ _, None) example_net.

(** The same node with a radio model attached. *)
Definition example_net_with_model : Nodes.EmaneNet :=
  Nodes.with_model (λ _, Some (Nodes.new_model basic_range 7)) example_net.

(** A mobility model class, and a manager with the three example classes
    registered. *)
Definition waypoint : WirelessModelType :=
  ConfigurableOptions.mk "waypoint" MOBILITY
    [Configuration.init "speed" FLOAT None "1.0" None].

Definition example_registry : Config.ModelManager :=
  Config.mk ∅ ∅
    (list_to_map [("basic-range", basic_range); ("waypoint", waypoint);
                  ("utility", utility_model)]) ∅.

(** * Properties of dictionaries *)

Section odict_facts.
Context {K V : Type} `{EqDecision K}.
Implicit Types (d : OrderedDict.t K V) (k : K) (v : V).

Lemma get_setitem k k' v d :
  OrderedDict.get k' (OrderedDict.setitem k v d)
  = if decide (k = k') then Some v else OrderedDict.get k' d.
Proof.
  induction d as [|[k0 v0] d IH]; simpl.
  - repeat case_decide; congruence.
  - destruct (decide (k0 = k)) as [->|Hne]; simpl.
    + repeat case_decide; congruence.
    + rewrite IH. repeat case_decide; congruence.
Qed.

Lemma keys_setitem_elem k k' v d :
  k' ∈ OrderedDict.keys (OrderedDict.setitem k v d)
  ↔ k' = k ∨ k' ∈ OrderedDict.keys d.
Proof.
  unfold OrderedDict.keys. induction d as [|[k0 v0] d IH]; simpl.
  - rewrite list_elem_of_singleton, elem_of_nil. tauto.
  - destruct (decide (k0 = k)) as [->|Hne]; simpl.
    + rewrite !elem_of_cons. tauto.
    + rewrite !elem_of_cons, IH. tauto.
Qed.

Lemma keys_setitem_NoDup k v d :
  NoDup (OrderedDict.keys d) →
  NoDup (OrderedDict.keys (OrderedDict.setitem k v d)).
Proof.
  induction d as [|[k0 v0] d IH]; simpl; intros Hnd.
  - apply NoDup_singleton.
  - apply NoDup_cons in Hnd as [Hnotin Hnd].
    destruct (decide (k0 = k)) as [->|Hne]; simpl.
    + by apply NoDup_cons.
    + apply NoDup_cons. split; [|by apply IH].
      fold (OrderedDict.keys (OrderedDict.setitem k v d)).
      rewrite keys_setitem_elem. intros [?|?]; [congruence | done].
Qed.

Lemma of_pairs_NoDup (pairs : list (K * V)) :
  NoDup (OrderedDict.keys (OrderedDict.of_pairs pairs)).
Proof.
  unfold OrderedDict.of_pairs.
  assert (Hgen : ∀ d, NoDup (OrderedDict.keys d) →
    NoDup (OrderedDict.keys
      (fold_left (λ d kv, OrderedDict.setitem kv.1 kv.2 d) pairs d))).
  { induction pairs as [|kv pairs IH]; intros d Hd; [done|].
    simpl. apply IH. by apply keys_setitem_NoDup. }
  apply Hgen. apply NoDup_nil_2.
Qed.

Lemma get_is_Some k d :
  is_Some (OrderedDict.get k d) ↔ k ∈ OrderedDict.keys d.
Proof.
  unfold OrderedDict.keys. induction d as [|[k0 v0] d IH]; simpl.
  - split; [by intros [? ?] | by intros ?%elem_of_nil].
  - rewrite elem_of_cons. case_decide as Hk.
    + split; [by left | by eauto].
    + rewrite IH. split; [by right | intros [?|?]; [congruence | done]].
Qed.

Lemma get_all_None d : (∀ k, OrderedDict.get k d = None) → d = [].
Proof.
  destruct d as [|[k0 v0] d]; [done|].
  intros Hnone. specialize (Hnone k0). simpl in Hnone.
  by rewrite decide_True in Hnone.
Qed.
End odict_facts.

(** [merged] assigns the items of [config] over [d]. *)
Lemma merged_keys_acc (config : odict) keys d key :
  OrderedDict.get key
    (fold_left (λ d key,
       match OrderedDict.get key config with
       | Some value => OrderedDict.setitem key value d
       | None => d
       end) keys d)
  = if decide (key ∈ keys)
    then match OrderedDict.get key config with
         | Some value => Some value
         | None => OrderedDict.get key d
         end
    else OrderedDict.get key d.
Proof.
  revert d. induction keys as [|k keys IH]; intros d; simpl.
  - done.
  - rewrite IH.
    destruct (decide (key ∈ keys)) as [Hin|Hnotin].
    + rewrite decide_True by (by right).
      destruct (OrderedDict.get key config) as [value|] eqn:Hkey; [done|].
      destruct (OrderedDict.get k config) as [value'|] eqn:Hk; [|done].
      rewrite get_setitem. case_decide; congruence.
    + destruct (decide (key = k)) as [->|Hne].
      * rewrite decide_True by (by left).
        destruct (OrderedDict.get k config) as [value|]; [|done].
        rewrite get_setitem. by rewrite decide_True.
      * rewrite decide_False by (rewrite elem_of_cons; tauto).
        destruct (OrderedDict.get k config) as [value|]; [|done].
        rewrite get_setitem. by rewrite decide_False by congruence.
Qed.

Lemma get_merged (config d : odict) key :
  OrderedDict.get key (merged config d)
  = match OrderedDict.get key config with
    | Some value => Some value
    | None => OrderedDict.get key d
    end.
Proof.
  unfold merged. rewrite merged_keys_acc. case_decide as Hin; [done|].
  destruct (OrderedDict.get key config) as [value|] eqn:Hkey; [|done].
  exfalso. apply Hin. apply get_is_Some. by rewrite Hkey.
Qed.

Lemma merged_NoDup (config d : odict) :
  NoDup (OrderedDict.keys d) → NoDup (OrderedDict.keys (merged config d)).
Proof.
  unfold merged. generalize (OrderedDict.keys config) as keys.
  intros keys. revert d. induction keys as [|k keys IH]; intros d Hd; [done|].
  simpl. apply IH.
  destruct (OrderedDict.get k config); [by apply keys_setitem_NoDup | done].
Qed.

Lemma merged_empty (d : odict) : merged [] d = d.
Proof. reflexivity. Qed.

Lemma default_values_NoDup cls :
  NoDup (OrderedDict.keys (ConfigurableOptions.default_values cls)).
Proof. apply of_pairs_NoDup. Qed.

(** * Properties of [ModelManager] *)

(** Reading back what has just been stored. *)
Ltac stored_lookup :=
  unfold stored_config, stored_ref; simpl;
  rewrite ?lookup_insert_eq; simpl; rewrite ?lookup_insert_eq; simpl;
  rewrite ?lookup_insert_eq.

Lemma get_configs_run s node_id config_type :
  Config.get_configs node_id config_type s
  = (inr (stored_ref s node_id config_type), s).
Proof.
  unfold Config.get_configs, gets, stored_ref.
  destruct (Config.node_configurations s !! node_id) as [node_configs|];
    simpl; [|done].
  case_bool_decide as Hne; [done|].
  subst node_configs. by rewrite lookup_empty.
Qed.

(** A truthy stored configuration is returned as it is. *)
Lemma get_model_config_hit s node_id model_name cls r kv d :
  Config.models s !! model_name = Some cls →
  stored_ref s node_id (inr model_name) = Some r →
  Config.heap s !! r = Some (kv :: d) →
  Config.get_model_config node_id model_name s = (inr r, s).
Proof.
  intros Hcls Href Hd. unfold Config.get_model_config.
  unfold bind at 1. unfold gets at 1. rewrite Hcls.
  unfold bind at 1. rewrite get_configs_run, Href.
  unfold bind, Config.truthy_config, gets. by rewrite Hd.
Qed.

(** Otherwise a new dictionary with the default values is stored and
    returned. *)
Lemma get_model_config_miss s node_id model_name cls :
  Config.models s !! model_name = Some cls →
  stored_config s node_id model_name = None
  ∨ stored_config s node_id model_name = Some [] →
  let r := fresh (dom (Config.heap s)) in
  Config.get_model_config node_id model_name s
  = (inr r,
     stored_at r node_id (inr model_name)
       (Config.with_heap <[r := ConfigurableOptions.default_values cls]> s)).
Proof.
  intros Hcls Hstored r. unfold Config.get_model_config.
  unfold bind at 1. unfold gets at 1. rewrite Hcls.
  unfold bind at 1. rewrite get_configs_run.
  unfold stored_config in Hstored.
  destruct (stored_ref s node_id (inr model_name)) as [r0|]; simpl in Hstored.
  - unfold bind at 1. unfold Config.truthy_config, gets.
    assert (Hfalsy : match Config.heap s !! r0 with
                     | Some d => OrderedDict.truthy d
                     | None => false
                     end = false).
    { destruct Hstored as [->| ->]; done. }
    rewrite Hfalsy. reflexivity.
  - reflexivity.
Qed.

(** In both cases the call returns a live dictionary that is the one stored
    for the node and the model, and that holds the stored configuration if
    there was a non-empty one and the default values otherwise. *)
Lemma get_model_config_run s node_id model_name cls :
  Config.models s !! model_name = Some cls →
  ∃ r s',
    Config.get_model_config node_id model_name s = (inr r, s')
    ∧ stored_ref s' node_id (inr model_name) = Some r
    ∧ Config.heap s' !! r
      = Some (current_or_default cls (stored_config s node_id model_name))
    ∧ Config.models s' = Config.models s
    ∧ Config.node_models s' = Config.node_models s.
Proof.
  intros Hcls.
  destruct (stored_config s node_id model_name) as [[|kv d]|] eqn:Hstored.
  - eexists _, _. split; [apply (get_model_config_miss _ _ _ cls); auto|].
    by stored_lookup.
  - unfold stored_config in Hstored.
    destruct (stored_ref s node_id (inr model_name)) as [r|] eqn:Href;
      [|done].
    simpl in Hstored. exists r, s.
    split; [by eapply get_model_config_hit|]. done.
  - eexists _, _. split; [apply (get_model_config_miss _ _ _ cls); auto|].
    by stored_lookup.
Qed.

(** The assignment loop of [set_model_config] on a live dictionary. *)
Lemma set_model_config_loop (config : odict) keys s r d :
  Config.heap s !! r = Some d →
  (∀ key, key ∈ keys → is_Some (OrderedDict.get key config)) →
  for_each keys (λ key,
    match OrderedDict.get key config with
    | Some value => Config.setitem_at r key value
    | None => raise (KeyError key)
    end) s
  = (inr tt,
     Config.with_heap
       <[r := fold_left (λ d key,
                match OrderedDict.get key config with
                | Some value => OrderedDict.setitem key value d
                | None => d
                end) keys d]> s).
Proof.
  revert s d. induction keys as [|key keys IH]; intros s d Hd Hkeys.
  - simpl. unfold ret. f_equal. destruct s as [h ncs ms nms].
    unfold Config.with_heap. simpl in *. f_equal. by rewrite insert_id.
  - simpl. destruct (Hkeys key) as [value Hvalue]; [by left|].
    rewrite Hvalue. unfold bind at 1. unfold Config.setitem_at at 1.
    unfold modify at 1.
    rewrite (IH _ (OrderedDict.setitem key value d)).
    + f_equal. destruct s as [h ncs ms nms].
      unfold Config.with_heap. simpl in *. f_equal.
      rewrite insert_alter_eq. done.
    + destruct s as [h ncs ms nms]. simpl in *.
      rewrite lookup_alter_eq. by rewrite Hd.
    + intros key' Hin. apply Hkeys. by right.
Qed.

(** A call for a registered model, in terms of the read it starts with: the
    dictionary the read returns is updated in place, the model is recorded
    for the node, and the dictionary is stored again. *)
Lemma set_model_config_state s node_id model_name cls config r s1 d :
  Config.models s !! model_name = Some cls →
  Config.get_model_config node_id model_name s = (inr r, s1) →
  Config.heap s1 !! r = Some d →
  Config.set_model_config node_id model_name config s
  = (inr tt,
     stored_at r node_id (inr model_name)
       (Config.with_node_models <[node_id := model_name]>
          (Config.with_heap <[r := merged (default [] config) d]> s1))).
Proof.
  intros Hcls Hget Hheap. unfold Config.set_model_config.
  unfold bind at 1. unfold gets at 1. rewrite Hcls.
  unfold bind at 1. rewrite Hget.
  assert (Hnorm : match config with
                  | Some (kv :: config') => kv :: config'
                  | _ => []
                  end = default [] config).
  { by destruct config as [[|kv config']|]. }
  rewrite Hnorm.
  unfold bind at 1.
  rewrite (set_model_config_loop _ _ s1 r _ Hheap).
  2:{ intros key Hin. by apply get_is_Some. }
  reflexivity.
Qed.

Lemma set_model_config_run s node_id model_name cls config :
  Config.models s !! model_name = Some cls →
  ∃ s',
    Config.set_model_config node_id model_name config s = (inr tt, s')
    ∧ stored_config s' node_id model_name
      = Some (merged (default [] config)
                (current_or_default cls (stored_config s node_id model_name)))
    ∧ Config.models s' = Config.models s
    ∧ Config.node_models s' = <[node_id := model_name]> (Config.node_models s).
Proof.
  intros Hcls.
  destruct (get_model_config_run s node_id model_name cls Hcls)
    as (r & s1 & Hget & Href & Hheap & Hmodels & Hnm).
  eexists. split; [by eapply set_model_config_state|].
  split; [by stored_lookup|]. simpl. by rewrite Hmodels, Hnm.
Qed.

(** C2: for a model name that is not registered, both [set_model_config] and
    [get_model_config] raise the invalid-model error, and the manager, with
    [node_configurations] and [node_models], is the same after the failed
    call as before it. *)
Theorem unregistered_model_raises s node_id model_name config :
  Config.models s !! model_name = None →
  Config.set_model_config node_id model_name config s
  = (inl (ValueError (model_name +:+ " is an invalid model") []), s)
  ∧ Config.get_model_config node_id model_name s
    = (inl (ValueError (model_name +:+ " is an invalid model") []), s).
Proof.
  intros Hnone.
  unfold Config.set_model_config, Config.get_model_config, bind, gets, raise.
  by rewrite Hnone.
Qed.

Lemma unregistered_model_raises_witness :
  Config.models example_store !! "rf-pipe" = None
  ∧ Config.set_model_config 1 "rf-pipe" (Some [("range", "400")]) example_store
    = (inl (ValueError "rf-pipe is an invalid model" []), example_store)
  ∧ Config.get_model_config 1 "rf-pipe" example_store
    = (inl (ValueError "rf-pipe is an invalid model" []), example_store).
Proof.
  split; [by vm_compute|].
  apply (unregistered_model_raises example_store 1 "rf-pipe"). by vm_compute.
Defined.

(** ** Reset *)

(** Resetting never raises. *)
Lemma config_reset_returns s node_id :
  ∃ s', Config.config_reset node_id s = (inr tt, s').
Proof.
  unfold Config.config_reset. destruct node_id as [n|]; [|by eexists].
  case_decide; [by eexists|].
  unfold bind, gets. case_bool_decide; by eexists.
Qed.

(** With no node id every node is cleared. *)
Lemma config_reset_all s :
  Config.config_reset None s
  = (inr tt, Config.with_node_configurations (λ _, ∅) s).
Proof. reflexivity. Qed.

(** With a node id other than 0, that node is cleared and no other. *)
Lemma config_reset_node s n :
  n ≠ 0%Z →
  Config.config_reset (Some n) s
  = (inr tt, Config.with_node_configurations (delete n) s).
Proof.
  intros Hn. unfold Config.config_reset. rewrite decide_False by done.
  unfold bind, gets. case_bool_decide as Hin; [done|].
  unfold ret. f_equal. destruct s as [h ncs ms nms].
  unfold Config.with_node_configurations. simpl in *. f_equal.
  symmetry. apply delete_id. by apply not_elem_of_dom.
Qed.

Lemma config_reset_node_frame s n s' node_id config_type :
  n ≠ 0%Z → node_id ≠ n →
  Config.config_reset (Some n) s = (inr tt, s') →
  stored_ref s' n config_type = None
  ∧ stored_ref s' node_id config_type = stored_ref s node_id config_type
  ∧ Config.heap s' = Config.heap s.
Proof.
  intros Hn Hne. rewrite config_reset_node by done. intros [= <-].
  unfold stored_ref. simpl. rewrite lookup_delete_eq.
  by rewrite lookup_delete_ne.
Qed.

(** C8 fails on the node id 0: resetting node 0 clears the configuration of
    every node, here that of node 1 as well. *)
Theorem config_reset_zero_clears_all :
  stored_config example_store 1 "basic-range" = Some [("range", "400")]
  ∧ ∃ s',
      Config.config_reset (Some 0%Z) example_store = (inr tt, s')
      ∧ Config.node_configurations s' = ∅
      ∧ stored_config s' 1 "basic-range" = None.
Proof.
  split; [by vm_compute|].
  eexists. split; [reflexivity|]. split; [reflexivity|]. by vm_compute.
Qed.

(** ** Accumulation of overrides *)

Lemma overridden_snoc defaults configs config key :
  overridden defaults (configs ++ [config]) key
  = match OrderedDict.get key (default [] config) with
    | Some value => Some value
    | None => overridden defaults configs key
    end.
Proof.
  unfold overridden. rewrite reverse_snoc. cbn [omap list_omap].
  by destruct (OrderedDict.get key (default [] config)).
Qed.

Lemma overridden_None defaults configs key :
  overridden defaults configs key = None →
  OrderedDict.get key defaults = None.
Proof. unfold overridden. by destruct (omap _ _). Qed.

Lemma overlay_snoc defaults configs config :
  overlay defaults (configs ++ [config])
  = merged (default [] config) (overlay defaults configs).
Proof. unfold overlay. by rewrite fold_left_app. Qed.

(** Key by key, the overlay holds the value of the latest call that supplies
    the key, and the default value otherwise. *)
Lemma get_overlay defaults configs key :
  OrderedDict.get key (overlay defaults configs)
  = overridden defaults configs key.
Proof.
  induction configs as [|config configs IH] using rev_ind; [done|].
  by rewrite overlay_snoc, get_merged, overridden_snoc, IH.
Qed.

Lemma overlay_NoDup defaults configs :
  NoDup (OrderedDict.keys defaults) →
  NoDup (OrderedDict.keys (overlay defaults configs)).
Proof.
  intros Hnd. induction configs as [|config configs IH] using rev_ind;
    [done|].
  rewrite overlay_snoc. by apply merged_NoDup.
Qed.

(** A stored overlay is what the next call works from, also when it is
    empty: the default values are empty then. *)
Lemma current_or_default_overlay cls configs :
  current_or_default cls
    (Some (overlay (ConfigurableOptions.default_values cls) configs))
  = overlay (ConfigurableOptions.default_values cls) configs.
Proof.
  destruct (overlay _ configs) as [|kv d] eqn:Hoverlay; [|done]. simpl.
  apply get_all_None. intros key. apply (overridden_None _ configs).
  by rewrite <- get_overlay, Hoverlay.
Qed.

Lemma set_model_configs_run cls node_id model_name configs :
  ∀ config done s,
    Config.models s !! model_name = Some cls →
    current_or_default cls (stored_config s node_id model_name)
    = overlay (ConfigurableOptions.default_values cls) done →
    ∃ s',
      for_each (config :: configs)
        (Config.set_model_config node_id model_name) s = (inr tt, s')
      ∧ stored_config s' node_id model_name
        = Some (overlay (ConfigurableOptions.default_values cls)
                  (done ++ config :: configs))
      ∧ Config.models s' = Config.models s.
Proof.
  induction configs as [|config' configs IH]; intros config done s Hcls Hcur.
  - destruct (set_model_config_run s node_id model_name cls config Hcls)
      as (s' & Hrun & Hstored & Hmodels & _).
    exists s'. split; [|split; [|done]].
    + simpl. unfold bind. by rewrite Hrun.
    + by rewrite Hstored, Hcur, overlay_snoc.
  - destruct (set_model_config_run s node_id model_name cls config Hcls)
      as (s1 & Hrun & Hstored & Hmodels & _).
    rewrite Hcur, <- overlay_snoc in Hstored.
    destruct (IH config' (done ++ [config]) s1) as (s' & Hrun' & Hrest).
    + by rewrite Hmodels.
    + rewrite Hstored. apply current_or_default_overlay.
    + exists s'. split.
      * change (for_each (config :: config' :: configs)
                  (Config.set_model_config node_id model_name) s)
          with (bind (Config.set_model_config node_id model_name config)
                  (λ _, for_each (config' :: configs)
                          (Config.set_model_config node_id model_name)) s).
        unfold bind at 1. by rewrite Hrun.
      * rewrite <- app_assoc in Hrest. simpl in Hrest.
        destruct Hrest as [? ->]. by rewrite Hmodels.
Qed.

(** C1: for a registered model and a node with nothing stored for it yet,
    after one or more calls of [set_model_config] every call has returned
    normally and the configuration stored for the node and the model is the
    default values of the model with the override maps laid over them in call
    order: a dictionary without repeated keys in which every key has the
    value of the latest call that supplied it, and the default value when no
    call supplied it.  A further call with an empty override map, or with
    none, leaves the stored configuration as it is. *)
Theorem set_model_config_accumulates s node_id model_name cls config configs :
  Config.models s !! model_name = Some cls →
  stored_config s node_id model_name = None →
  let defaults := ConfigurableOptions.default_values cls in
  ∃ s',
    for_each (config :: configs)
      (Config.set_model_config node_id model_name) s = (inr tt, s')
    ∧ stored_config s' node_id model_name
      = Some (overlay defaults (config :: configs))
    ∧ NoDup (OrderedDict.keys (overlay defaults (config :: configs)))
    ∧ (∀ key, OrderedDict.get key (overlay defaults (config :: configs))
              = overridden defaults (config :: configs) key)
    ∧ ∀ empty, empty = None ∨ empty = Some [] →
        ∃ s'',
          Config.set_model_config node_id model_name empty s' = (inr tt, s'')
          ∧ stored_config s'' node_id model_name
            = stored_config s' node_id model_name.
Proof.
  intros Hcls Hnone defaults.
  destruct (set_model_configs_run cls node_id model_name configs config [] s)
    as (s' & Hrun & Hstored & Hmodels).
  - done.
  - by rewrite Hnone.
  - exists s'. split; [done|]. split; [done|].
    split; [apply overlay_NoDup, default_values_NoDup|].
    split; [intros key; apply get_overlay|].
    intros empty Hempty.
    destruct (set_model_config_run s' node_id model_name cls empty)
      as (s'' & Hrun' & Hstored' & _); [by rewrite Hmodels|].
    exists s''. split; [done|]. rewrite Hstored', Hstored.
    simpl app. rewrite current_or_default_overlay.
    by destruct Hempty as [-> | ->].
Qed.

Lemma set_model_config_accumulates_witness :
  Config.models example_manager !! "basic-range" = Some basic_range
  ∧ stored_config example_manager 5 "basic-range" = None
  ∧ let defaults := ConfigurableOptions.default_values basic_range in
    let configs := [Some [("range", "400")]; Some []] in
    ∃ s',
      for_each configs (Config.set_model_config 5 "basic-range")
        example_manager
      = (inr tt, s')
      ∧ stored_config s' 5 "basic-range" = Some (overlay defaults configs)
      ∧ NoDup (OrderedDict.keys (overlay defaults configs))
      ∧ (∀ key, OrderedDict.get key (overlay defaults configs)
                = overridden defaults configs key)
      ∧ ∀ empty, empty = None ∨ empty = Some [] →
          ∃ s'',
            Config.set_model_config 5 "basic-range" empty s' = (inr tt, s'')
            ∧ stored_config s'' 5 "basic-range"
              = stored_config s' 5 "basic-range".
Proof.
  split; [by vm_compute|]. split; [by vm_compute|].
  apply (set_model_config_accumulates example_manager 5 "basic-range"
           basic_range (Some [("range", "400")]) [Some []]); by vm_compute.
Defined.

(** The scenario of the specification, evaluated. *)
Example set_model_config_scenario :
  ConfigurableOptions.default_values basic_range = [("range", "275")]
  ∧ stored_config
      (Config.set_model_config 5 "basic-range" (Some [("range", "400")])
         example_manager).2 5 "basic-range"
    = Some [("range", "400")]
  ∧ stored_config
      (for_each [Some [("range", "400")]; Some []]
         (Config.set_model_config 5 "basic-range") example_manager).2
      5 "basic-range"
    = Some [("range", "400")]
  ∧ stored_config
      (for_each [Some [("txpower", "3")]; None; Some [("range", "400")]]
         (Config.set_model_config 5 "basic-range") example_manager).2
      5 "basic-range"
    = Some [("range", "400"); ("txpower", "3")].
Proof. repeat split; by vm_compute. Qed.

(** ** Live references *)

Lemma init_closed : heap_closed Config.init.
Proof.
  intros node_id config_type r Href. unfold stored_ref in Href.
  simpl in Href. by rewrite lookup_empty in Href.
Qed.

(** Writing a dictionary object keeps every stored reference live. *)
Lemma heap_closed_write s r d :
  heap_closed s → heap_closed (Config.with_heap <[r := d]> s).
Proof.
  intros Hclosed n t r0 Href. simpl.
  apply lookup_insert_is_Some'. right. by apply (Hclosed n t).
Qed.

Lemma heap_closed_node_models s f :
  heap_closed s → heap_closed (Config.with_node_models f s).
Proof. intros Hclosed n t r0 Href. by apply (Hclosed n t). Qed.

(** So does storing a live dictionary. *)
Lemma heap_closed_stored_at s r node_id config_type :
  heap_closed s →
  is_Some (Config.heap s !! r) →
  heap_closed (stored_at r node_id config_type s).
Proof.
  intros Hclosed Hlive n t r0. unfold stored_ref. simpl.
  destruct (decide (n = node_id)) as [->|Hn].
  - rewrite lookup_insert_eq. simpl.
    destruct (decide (t = config_type)) as [->|Ht].
    + rewrite lookup_insert_eq. by intros [= <-].
    + rewrite lookup_insert_ne by done. intros Href.
      apply (Hclosed node_id t). unfold stored_ref.
      destruct (Config.node_configurations s !! node_id); simpl in *; [done|].
      by rewrite lookup_empty in Href.
  - rewrite lookup_insert_ne by done. intros Href. by apply (Hclosed n t).
Qed.

Lemma heap_closed_store s node_id config_type d :
  heap_closed s →
  let r := fresh (dom (Config.heap s)) in
  heap_closed
    (stored_at r node_id config_type (Config.with_heap <[r := d]> s)).
Proof.
  intros Hclosed r. apply heap_closed_stored_at.
  - by apply heap_closed_write.
  - simpl. by rewrite lookup_insert_eq.
Qed.

Lemma get_model_config_closed s node_id model_name :
  heap_closed s →
  heap_closed (Config.get_model_config node_id model_name s).2.
Proof.
  intros Hclosed.
  destruct (Config.models s !! model_name) as [cls|] eqn:Hcls.
  - destruct (stored_config s node_id model_name) as [[|kv d]|] eqn:Hstored.
    + rewrite (get_model_config_miss s node_id model_name cls) by auto.
      by apply heap_closed_store.
    + unfold stored_config in Hstored.
      destruct (stored_ref s node_id (inr model_name)) as [r|] eqn:Href;
        [|done].
      by rewrite (get_model_config_hit s node_id model_name cls r kv d).
    + rewrite (get_model_config_miss s node_id model_name cls) by auto.
      by apply heap_closed_store.
  - unfold Config.get_model_config, bind, gets, raise. by rewrite Hcls.
Qed.

Lemma set_model_config_closed s node_id model_name config :
  heap_closed s →
  heap_closed (Config.set_model_config node_id model_name config s).2.
Proof.
  intros Hclosed.
  destruct (Config.models s !! model_name) as [cls|] eqn:Hcls.
  - destruct (get_model_config_run s node_id model_name cls Hcls)
      as (r & s1 & Hget & Href & Hheap & _).
    rewrite (set_model_config_state s node_id model_name cls config r s1 _
               Hcls Hget Hheap).
    apply heap_closed_stored_at.
    + apply heap_closed_node_models, heap_closed_write.
      generalize (get_model_config_closed s node_id model_name Hclosed).
      by rewrite Hget.
    + simpl. by rewrite lookup_insert_eq.
  - unfold Config.set_model_config, bind, gets, raise. by rewrite Hcls.
Qed.

Lemma config_reset_closed s node_id :
  heap_closed s → heap_closed (Config.config_reset node_id s).2.
Proof.
  intros Hclosed.
  assert (Hall : heap_closed (Config.with_node_configurations (λ _, ∅) s)).
  { intros n t r Href. unfold stored_ref in Href. simpl in Href.
    by rewrite lookup_empty in Href. }
  destruct node_id as [n|]; [|done].
  destruct (decide (n = 0%Z)) as [->|Hn]; [done|].
  rewrite config_reset_node by done. simpl.
  intros n' t r Href. apply (Hclosed n' t).
  unfold stored_ref in *. simpl in Href.
  destruct (decide (n' = n)) as [->|Hne].
  - by rewrite lookup_delete_eq in Href.
  - by rewrite lookup_delete_ne in Href.
Qed.

(** The invariant goes through a loop whose body keeps it. *)
Lemma for_each_closed {A} (l : list A) (body : A → M Config.ModelManager unit) :
  (∀ x s, heap_closed s → heap_closed (body x s).2) →
  ∀ s, heap_closed s → heap_closed (for_each l body s).2.
Proof.
  intros Hbody. induction l as [|x l IH]; intros s Hclosed; [done|].
  simpl. unfold bind. specialize (Hbody x s Hclosed).
  destruct (body x s) as [[e|[]] s']; simpl in *; [done|]. by apply IH.
Qed.

(** ** Repeated reads *)

(** Storing a new dictionary in place of one with the same contents leaves
    the stored configurations, taken by value, as they were. *)
Lemma contents_store s node_id config_type r0 d :
  heap_closed s →
  stored_ref s node_id config_type = Some r0 →
  Config.heap s !! r0 = Some d →
  let r := fresh (dom (Config.heap s)) in
  contents (stored_at r node_id config_type (Config.with_heap <[r := d]> s))
  = contents s.
Proof.
  intros Hclosed Href Hd r.
  assert (Hfresh : Config.heap s !! r = None).
  { apply not_elem_of_dom. apply is_fresh. }
  assert (Hlive : ∀ n t r1, stored_ref s n t = Some r1 →
            <[r := d]> (Config.heap s) !! r1 = Config.heap s !! r1).
  { intros n t r1 Hr1. apply lookup_insert_ne. intros <-.
    destruct (Hclosed n t r Hr1) as [? Hsome]. congruence. }
  unfold stored_ref in Href.
  destruct (Config.node_configurations s !! node_id) as [nc|] eqn:Hnc;
    [|done].
  simpl in Href.
  unfold contents. simpl. rewrite Hnc. simpl.
  apply map_eq. intros n. rewrite !lookup_fmap.
  destruct (decide (n = node_id)) as [->|Hn].
  - rewrite lookup_insert_eq, Hnc. simpl. f_equal.
    apply map_eq. intros t. rewrite !lookup_fmap.
    destruct (decide (t = config_type)) as [->|Ht].
    + rewrite lookup_insert_eq, Href. simpl. by rewrite lookup_insert_eq, Hd.
    + rewrite lookup_insert_ne by done.
      destruct (nc !! t) as [r1|] eqn:Hr1; [|done]. simpl. f_equal.
      apply (Hlive node_id t). unfold stored_ref. by rewrite Hnc.
  - rewrite lookup_insert_ne by done.
    destruct (Config.node_configurations s !! n) as [nc'|] eqn:Hnc'; [|done].
    simpl. f_equal. apply map_eq. intros t. rewrite !lookup_fmap.
    destruct (nc' !! t) as [r1|] eqn:Hr1; [|done]. simpl. f_equal.
    apply (Hlive n t). unfold stored_ref. by rewrite Hnc'.
Qed.

(** A read of a configuration that is stored and, if empty, equal to the
    default values: the same contents are returned, and they are stored and
    live afterwards. *)
Lemma get_model_config_again s node_id model_name cls r d :
  Config.models s !! model_name = Some cls →
  heap_closed s →
  stored_ref s node_id (inr model_name) = Some r →
  Config.heap s !! r = Some d →
  (d = [] → ConfigurableOptions.default_values cls = []) →
  ∃ r' s',
    Config.get_model_config node_id model_name s = (inr r', s')
    ∧ (Config.models s' = Config.models s
       ∧ heap_closed s'
       ∧ stored_ref s' node_id (inr model_name) = Some r'
       ∧ Config.heap s' !! r' = Some d)
    ∧ contents s' = contents s
    ∧ Config.node_models s' = Config.node_models s
    ∧ (d ≠ [] → r' = r ∧ s' = s).
Proof.
  intros Hcls Hclosed Href Hd Hempty.
  destruct d as [|kv d].
  - eexists _, _. split.
    { apply (get_model_config_miss _ _ _ cls); [done|].
      right. unfold stored_config. by rewrite Href. }
    rewrite (Hempty eq_refl).
    split; [split; [done|split; [by apply heap_closed_store|split]]|].
    + by stored_lookup.
    + simpl. by rewrite lookup_insert_eq.
    + split; [by apply (contents_store s _ _ r)|]. done.
  - exists r, s. split; [by eapply get_model_config_hit|]. done.
Qed.

Lemma get_model_config_in_a_row node_id model_name cls d k :
  ∀ s r,
    Config.models s !! model_name = Some cls →
    heap_closed s →
    stored_ref s node_id (inr model_name) = Some r →
    Config.heap s !! r = Some d →
    (d = [] → ConfigurableOptions.default_values cls = []) →
    ∃ rk sk,
      in_a_row k (Config.get_model_config node_id model_name) s = (inr rk, sk)
      ∧ Config.heap sk !! rk = Some d
      ∧ contents sk = contents s
      ∧ Config.models sk = Config.models s
      ∧ Config.node_models sk = Config.node_models s
      ∧ (d ≠ [] → rk = r ∧ sk = s).
Proof.
  induction k as [|k IH]; intros s r Hcls Hclosed Href Hd Hempty.
  - destruct (get_model_config_again s node_id model_name cls r d)
      as (r' & s' & Hrun & (Hm & _ & _ & Hd') & Hc & Hnm & Hsame); try done.
    by exists r', s'.
  - destruct (get_model_config_again s node_id model_name cls r d)
      as (r' & s' & Hrun & (Hm & Hclosed' & Href' & Hd') & Hc & Hnm & Hsame);
      try done.
    destruct (IH s' r') as (rk & sk & Hrunk & Hdk & Hck & Hmk & Hnmk & Hsamek);
      try done.
    { by rewrite Hm. }
    exists rk, sk. split.
    { unfold in_a_row. simpl. unfold bind at 1. rewrite Hrun. apply Hrunk. }
    split; [done|]. split; [congruence|]. split; [congruence|].
    split; [congruence|].
    intros Hne. destruct (Hsame Hne) as [-> ->]. by apply Hsamek.
Qed.

(** C9: for a registered model, the first read returns a configuration, and
    any number of further reads in a row each return a dictionary with the
    same contents and leave the stored configurations (by value), the
    registry and the active models as the first read left them; when the
    configuration is not empty, it is the very same dictionary object and the
    manager does not change at all. *)
Theorem get_model_config_idempotent s node_id model_name cls k :
  Config.models s !! model_name = Some cls →
  heap_closed s →
  ∃ r1 s1 d,
    Config.get_model_config node_id model_name s = (inr r1, s1)
    ∧ Config.heap s1 !! r1 = Some d
    ∧ ∃ rk sk,
        in_a_row k (Config.get_model_config node_id model_name) s1
        = (inr rk, sk)
        ∧ Config.heap sk !! rk = Some d
        ∧ contents sk = contents s1
        ∧ Config.models sk = Config.models s1
        ∧ Config.node_models sk = Config.node_models s1
        ∧ (d ≠ [] → rk = r1 ∧ sk = s1).
Proof.
  intros Hcls Hclosed.
  destruct (get_model_config_run s node_id model_name cls Hcls)
    as (r1 & s1 & Hrun & Href & Hd & Hm & Hnm).
  exists r1, s1, (current_or_default cls (stored_config s node_id model_name)).
  split; [done|]. split; [done|].
  apply (get_model_config_in_a_row node_id model_name cls _ k s1 r1);
    try done.
  - by rewrite Hm.
  - generalize (get_model_config_closed s node_id model_name Hclosed).
    by rewrite Hrun.
  - by destruct (stored_config s node_id model_name) as [[|kv d]|].
Qed.

Lemma example_store_closed : heap_closed example_store.
Proof.
  apply for_each_closed.
  - intros node_id s. apply set_model_config_closed.
  - intros node_id config_type r Href. unfold stored_ref in Href.
    simpl in Href. by rewrite lookup_empty in Href.
Qed.

Lemma get_model_config_idempotent_witness :
  Config.models example_store !! "basic-range" = Some basic_range
  ∧ heap_closed example_store
  ∧ ∃ r1 s1 d,
      Config.get_model_config 1 "basic-range" example_store = (inr r1, s1)
      ∧ Config.heap s1 !! r1 = Some d
      ∧ ∃ rk sk,
          in_a_row 2 (Config.get_model_config 1 "basic-range") s1
          = (inr rk, sk)
          ∧ Config.heap sk !! rk = Some d
          ∧ contents sk = contents s1
          ∧ Config.models sk = Config.models s1
          ∧ Config.node_models sk = Config.node_models s1
          ∧ (d ≠ [] → rk = r1 ∧ sk = s1).
Proof.
  split; [by vm_compute|]. split; [apply example_store_closed|].
  apply (get_model_config_idempotent example_store 1 "basic-range"
           basic_range 2); [by vm_compute | apply example_store_closed].
Defined.

(** The first read stores the default values; the reads after it return the
    dictionary it stored and change nothing. *)
Example get_model_config_first_read :
  let first := Config.get_model_config 5 "basic-range" example_manager in
  stored_config example_manager 5 "basic-range" = None
  ∧ stored_config first.2 5 "basic-range" = Some [("range", "275")]
  ∧ Config.get_model_config 5 "basic-range" first.2 = first
  ∧ in_a_row 3 (Config.get_model_config 5 "basic-range") first.2 = first.
Proof. repeat split; by vm_compute. Qed.

(** * Properties of [EmaneNet] *)

Lemma nem_position_None self netif :
  Nodes._nem_position self netif = None ↔ Nodes.getnemid self netif = None.
Proof.
  unfold Nodes._nem_position.
  destruct (Nodes.getnemid self netif) as [nemid|]; [|done].
  destruct (Nodes.getposition _) as [[px py] pz].
  destruct (Nodes.getgeo _ _ _ _) as [[lat lon] a].
  split; intros; discriminate.
Qed.

Lemma setnempositions_loop self netifs event :
  fold_left (λ event netif,
      match Nodes._nem_position self netif with
      | Some (nemid, lon, lat, alt) => Nodes.append event nemid lat lon alt
      | None => event
      end) netifs event
  = event ++ resolved_entries self netifs.
Proof.
  revert event. induction netifs as [|netif netifs IH]; intros event; simpl.
  - by rewrite app_nil_r.
  - rewrite IH. unfold resolved_entries. simpl.
    destruct (Nodes._nem_position self netif) as [[[[nemid lon] lat] a]|]; simpl.
    + unfold Nodes.append. by rewrite <- app_assoc.
    + done.
Qed.

Lemma setnempositions_available self netif netifs received :
  Nodes.service (Nodes.session self) = Some received →
  Nodes.setnempositions (netif :: netifs) self
  = (inr tt,
     Nodes.with_service
       (λ _, Some (received ++ [(0%Z, resolved_entries self (netif :: netifs))]))
       self).
Proof.
  intros Hsvc. unfold Nodes.setnempositions.
  case_decide; [done|].
  unfold Nodes.publish, bind, gets, modify. rewrite Hsvc.
  rewrite (setnempositions_loop self (netif :: netifs) []).
  unfold Nodes.with_service. rewrite !Hsvc. done.
Qed.

(** C3: with the sink available, a non-empty batch makes exactly one publish
    call (the calls received by the sink grow by one, on channel 0), whose
    event holds the resolved positions of the interfaces in the order of the
    list; an interface resolves to no position exactly when it has no NEM id,
    and such an interface is left out without stopping the batch. *)
Theorem setnempositions_one_event self moved_netifs received :
  moved_netifs ≠ [] →
  Nodes.service (Nodes.session self) = Some received →
  (∃ self',
     Nodes.setnempositions moved_netifs self = (inr tt, self')
     ∧ sink_calls self'
       = sink_calls self ++ [(0%Z, resolved_entries self moved_netifs)])
  ∧ resolved_entries self moved_netifs
    = entry_of <$>
        omap (Nodes._nem_position self)
          (filter (λ netif, is_Some (Nodes.getnemid self netif)) moved_netifs)
  ∧ ∀ netif, Nodes._nem_position self netif = None
             ↔ Nodes.getnemid self netif = None.
Proof.
  intros Hne Hsvc. split; [|split].
  - destruct moved_netifs as [|netif netifs]; [done|].
    eexists. split; [by apply setnempositions_available|].
    unfold sink_calls. simpl. by rewrite Hsvc.
  - clear. unfold resolved_entries.
    induction moved_netifs as [|netif netifs IH]; [done|].
    destruct (Nodes._nem_position self netif) as [p|] eqn:Hp.
    + rewrite filter_cons_True; last first.
      { apply not_eq_None_Some. intros Hnone.
        apply nem_position_None in Hnone. congruence. }
      cbn [omap list_omap fmap list_fmap]. rewrite Hp. cbn. f_equal. apply IH.
    + rewrite filter_cons_False; last first.
      { intros [n Hn]. apply nem_position_None in Hp. congruence. }
      cbn [omap list_omap]. rewrite Hp. cbn. apply IH.
  - apply nem_position_None.
Qed.

(** The scenarios of the specification, evaluated: B without an id is left
    out; with both ids there is one event with the two entries in the order
    of the list given. *)
Example setnempositions_scenarios :
  Nodes.setnempositions [netif_A; netif_B] example_net
  = (inr tt,
     Nodes.with_service
       (λ _, Some [(0%Z, [Nodes.mkLocationEntry 10 2 1 3])]) example_net)
  ∧ Nodes.setnempositions [netif_B; netif_A] example_net_both
    = (inr tt,
       Nodes.with_service
         (λ _, Some [(0%Z, [Nodes.mkLocationEntry 11 2 1 3;
                            Nodes.mkLocationEntry 10 2 1 3])])
         example_net_both).
Proof. split; reflexivity. Qed.

Lemma setnempositions_one_event_witness :
  [netif_A; netif_B] ≠ []
  ∧ Nodes.service (Nodes.session example_net) = Some []
  ∧ ((∃ self',
        Nodes.setnempositions [netif_A; netif_B] example_net = (inr tt, self')
        ∧ sink_calls self'
          = sink_calls example_net
            ++ [(0%Z, resolved_entries example_net [netif_A; netif_B])])
     ∧ resolved_entries example_net [netif_A; netif_B]
       = entry_of <$>
           omap (Nodes._nem_position example_net)
             (filter (λ netif, is_Some (Nodes.getnemid example_net netif))
                [netif_A; netif_B])
     ∧ ∀ netif, Nodes._nem_position example_net netif = None
                ↔ Nodes.getnemid example_net netif = None).
Proof.
  split; [done|]. split; [reflexivity|].
  apply (setnempositions_one_event example_net [netif_A; netif_B] []);
    [done | reflexivity].
Defined.

(** Nothing is published for an empty list or without a sink. *)
Lemma setnempositions_unavailable self moved_netifs :
  moved_netifs = [] ∨ Nodes.service (Nodes.session self) = None →
  Nodes.setnempositions moved_netifs self = (inr tt, self)
  ∧ ∀ netif, Nodes.service (Nodes.session self) = None →
      Nodes.setnemposition netif self = (inr tt, self).
Proof.
  intros Hcase. split.
  - unfold Nodes.setnempositions. case_decide as Hlen; [done|].
    destruct Hcase as [->|Hsvc]; [done|].
    unfold bind, gets. by rewrite Hsvc.
  - intros netif Hsvc. unfold Nodes.setnemposition, bind, gets.
    by rewrite Hsvc.
Qed.

(** C4: a batch publish with an empty list of interfaces (whatever the sink),
    or with no sink (whatever the list), returns normally and leaves the node
    and its session as they were, so that the sink receives no call; a single
    publish with no sink does the same. *)
Theorem setnempositions_silent self moved_netifs netif :
  moved_netifs = [] ∨ Nodes.service (Nodes.session self) = None →
  (Nodes.setnempositions moved_netifs self = (inr tt, self)
   ∧ sink_calls (Nodes.setnempositions moved_netifs self).2 = sink_calls self)
  ∧ (Nodes.service (Nodes.session self) = None →
     Nodes.setnemposition netif self = (inr tt, self)
     ∧ sink_calls (Nodes.setnemposition netif self).2 = sink_calls self).
Proof.
  intros Hcase.
  destruct (setnempositions_unavailable self moved_netifs Hcase)
    as [Hbatch Hsingle].
  split.
  - by rewrite Hbatch.
  - intros Hsvc. by rewrite (Hsingle netif Hsvc).
Qed.

Lemma setnempositions_silent_witness :
  ([netif_A; netif_B] = []
   ∨ Nodes.service (Nodes.session example_net_no_service) = None)
  ∧ (Nodes.setnempositions [netif_A; netif_B] example_net_no_service
     = (inr tt, example_net_no_service)
     ∧ sink_calls
         (Nodes.setnempositions [netif_A; netif_B] example_net_no_service).2
       = sink_calls example_net_no_service)
  ∧ (Nodes.service (Nodes.session example_net_no_service) = None →
     Nodes.setnemposition netif_A example_net_no_service
     = (inr tt, example_net_no_service)
     ∧ sink_calls (Nodes.setnemposition netif_A example_net_no_service).2
       = sink_calls example_net_no_service).
Proof.
  split; [right; reflexivity|].
  apply (setnempositions_silent example_net_no_service [netif_A; netif_B]).
  right; reflexivity.
Defined.

(** C10: with the sink available, a non-empty batch in which no interface has
    a NEM id still makes exactly one publish call, of an event with no
    entries. *)
Theorem setnempositions_all_unresolved self moved_netifs received :
  moved_netifs ≠ [] →
  Nodes.service (Nodes.session self) = Some received →
  Forall (λ netif, Nodes.getnemid self netif = None) moved_netifs →
  ∃ self',
    Nodes.setnempositions moved_netifs self = (inr tt, self')
    ∧ sink_calls self' = sink_calls self ++ [(0%Z, [])].
Proof.
  intros Hne Hsvc Hnone.
  assert (Hentries : resolved_entries self moved_netifs = []).
  { clear Hne. unfold resolved_entries.
    induction Hnone as [|netif netifs Hn _ IH]; [done|].
    apply nem_position_None in Hn. cbn [omap list_omap]. rewrite Hn. cbn.
    apply IH. }
  destruct moved_netifs as [|netif netifs]; [done|].
  eexists. split; [by apply setnempositions_available|].
  rewrite Hentries. unfold sink_calls. simpl. by rewrite Hsvc.
Qed.

Lemma setnempositions_all_unresolved_witness :
  [netif_B; netif_B] ≠ []
  ∧ Nodes.service (Nodes.session example_net) = Some []
  ∧ Forall (λ netif, Nodes.getnemid example_net netif = None)
      [netif_B; netif_B]
  ∧ ∃ self',
      Nodes.setnempositions [netif_B; netif_B] example_net = (inr tt, self')
      ∧ sink_calls self' = sink_calls example_net ++ [(0%Z, [])].
Proof.
  split; [done|]. split; [reflexivity|].
  split; [repeat constructor|].
  apply (setnempositions_all_unresolved example_net [netif_B; netif_B] []);
    [done | reflexivity | repeat constructor].
Defined.

(** ** Rounding of the altitude *)

Lemma Qfloor_bounds v :
  (inject_Z (Qfloor v) <= v)%Q ∧ (v < inject_Z (Qfloor v) + 1)%Q.
Proof.
  split; [apply Qfloor_le|].
  generalize (Qlt_floor v). by rewrite inject_Z_plus.
Qed.

Lemma integer_gap (n f : Z) :
  (inject_Z n <= inject_Z f)%Q ∨ (inject_Z f + 1 <= inject_Z n)%Q.
Proof.
  destruct (Z.le_gt_cases n f) as [H|H].
  - left. by rewrite <- Zle_Qle.
  - right. assert (H' : (f + 1 <= n)%Z) by lia.
    rewrite Zle_Qle in H'. by rewrite inject_Z_plus in H'.
Qed.

(** No integer is closer to [v] than [py_round v]. *)
Lemma py_round_nearest v n :
  (Qabs (inject_Z (Nodes.py_round v) - v) <= Qabs (inject_Z n - v))%Q.
Proof.
  unfold Nodes.py_round.
  destruct (Qfloor_bounds v) as [Hlo Hhi].
  destruct (integer_gap n (Qfloor v)) as [Hn|Hn].
  all: destruct (v - inject_Z (Qfloor v) ?= 1 # 2)%Q eqn:Hc;
    [apply Qeq_alt in Hc | apply Qlt_alt in Hc | apply Qgt_alt in Hc].
  all: try destruct (Z.even (Qfloor v)).
  all: rewrite ?inject_Z_plus.
  all: change (inject_Z 1) with 1%Q.
  all: apply Qabs_case; intros; apply Qabs_case; intros; lra.
Qed.

Lemma py_round_within_half v :
  (Qabs (inject_Z (Nodes.py_round v) - v) <= 1 # 2)%Q.
Proof.
  unfold Nodes.py_round.
  destruct (Qfloor_bounds v) as [Hlo Hhi].
  destruct (v - inject_Z (Qfloor v) ?= 1 # 2)%Q eqn:Hc;
    [apply Qeq_alt in Hc | apply Qlt_alt in Hc | apply Qgt_alt in Hc].
  all: try destruct (Z.even (Qfloor v)).
  all: rewrite ?inject_Z_plus.
  all: change (inject_Z 1) with 1%Q.
  all: apply Qabs_case; intros; lra.
Qed.

(** An altitude that is already an integer is kept. *)
Lemma py_round_integer n : Nodes.py_round (inject_Z n) = n.
Proof.
  unfold Nodes.py_round. rewrite Qfloor_Z.
  destruct (inject_Z n - inject_Z n ?= 1 # 2)%Q eqn:Hc;
    [apply Qeq_alt in Hc | reflexivity | apply Qgt_alt in Hc]; lra.
Qed.

(** The binary64 numbers nearest to 12.6 and to 12.4 round as the decimal
    numbers do; a tie goes to the even neighbour. *)
Example py_round_binary64 :
  Nodes.py_round (7093169413108531 # 562949953421312) = 13%Z
  ∧ Nodes.py_round (6980579422424269 # 562949953421312) = 12%Z
  ∧ Nodes.py_round (25 # 2) = 12%Z
  ∧ Nodes.py_round (27 # 2) = 14%Z.
Proof. repeat split; reflexivity. Qed.

Lemma nem_position_Some self netif nemid lon lat a :
  Nodes._nem_position self netif = Some (nemid, lon, lat, a) →
  Nodes.getnemid self netif = Some nemid
  ∧ a = Nodes.py_round (resolved_altitude self netif).
Proof.
  unfold Nodes._nem_position, resolved_altitude, Nodes.getposition.
  destruct (Nodes.getnemid self netif) as [nemid'|]; [|done].
  destruct (Nodes.getgeo _ _ _ _) as [[glat glon] galt]. simpl.
  intros [= -> _ _ <-]. done.
Qed.

Lemma resolved_entries_elem self netifs entry :
  entry ∈ resolved_entries self netifs →
  ∃ netif, netif ∈ netifs
    ∧ Nodes.getnemid self netif = Some (Nodes.nem entry)
    ∧ Nodes.altitude entry = Nodes.py_round (resolved_altitude self netif).
Proof.
  unfold resolved_entries. rewrite list_elem_of_omap.
  intros (netif & Hin & Hentry). exists netif. split; [done|].
  destruct (Nodes._nem_position self netif) as [[[[nemid lon] lat] a]|] eqn:Hp;
    [|done].
  apply nem_position_Some in Hp as [Hid ->].
  simpl in Hentry. injection Hentry as <-. done.
Qed.

(** A single publish, with the sink available. *)
Lemma setnemposition_available self netif received :
  Nodes.service (Nodes.session self) = Some received →
  Nodes.setnemposition netif self
  = (inr tt,
     match Nodes._nem_position self netif with
     | Some position =>
         Nodes.with_service
           (λ _, Some (received ++ [(0%Z, [entry_of position])])) self
     | None => self
     end).
Proof.
  intros Hsvc. unfold Nodes.setnemposition.
  unfold bind at 1. unfold gets at 1. rewrite Hsvc.
  unfold bind at 1. unfold gets at 1.
  destruct (Nodes._nem_position self netif) as [[[[nemid lon] lat] a]|];
    [|done].
  unfold Nodes.publish, bind, gets, modify. rewrite Hsvc.
  unfold Nodes.with_service. rewrite !Hsvc. done.
Qed.

(** The event a publish call hands to the sink, on either path, holds the
    resolved positions of the interfaces it was called with. *)
Lemma published_event self moved_netifs self' channel event :
  Nodes.setnempositions moved_netifs self = (inr tt, self')
  ∨ (∃ netif, moved_netifs = [netif]
       ∧ Nodes.setnemposition netif self = (inr tt, self')) →
  sink_calls self' = sink_calls self ++ [(channel, event)] →
  channel = 0%Z ∧ event = resolved_entries self moved_netifs.
Proof.
  intros Hrun Hcalls.
  assert (Hsame : self' = self → False).
  { intros ->. symmetry in Hcalls. apply (f_equal length) in Hcalls.
    rewrite length_app in Hcalls. simpl in Hcalls. lia. }
  destruct (Nodes.service (Nodes.session self)) as [received|] eqn:Hsvc.
  - assert (Hstate : self' = Nodes.with_service
              (λ _, Some (received ++ [(0%Z, resolved_entries self moved_netifs)]))
              self).
    { destruct Hrun as [Hrun|(netif & -> & Hrun)].
      - destruct moved_netifs as [|netif netifs].
        { injection Hrun as <-. by destruct Hsame. }
        rewrite (setnempositions_available _ _ _ received Hsvc) in Hrun.
        by injection Hrun as <-.
      - rewrite (setnemposition_available _ _ received Hsvc) in Hrun.
        unfold resolved_entries. cbn [omap list_omap].
        destruct (Nodes._nem_position self netif) as [position|].
        + by injection Hrun as <-.
        + injection Hrun as <-. by destruct Hsame. }
    subst self'. unfold sink_calls in Hcalls. simpl in Hcalls.
    rewrite Hsvc in Hcalls. simpl in Hcalls.
    by apply app_inj_tail in Hcalls as [_ [= <- <-]].
  - exfalso. apply Hsame.
    destruct Hrun as [Hrun|(netif & -> & Hrun)].
    + destruct (setnempositions_unavailable self moved_netifs) as [Heq _];
        [by right|]. congruence.
    + destruct (setnempositions_unavailable self [netif]) as [_ Heq];
        [by right|]. rewrite (Heq netif Hsvc) in Hrun. congruence.
Qed.

(** C5: whenever a publish call, batch or single, hands an event to the
    sink, every entry of the event belongs to one of the interfaces the call
    was made with, carries its NEM id, and has as altitude an integer: the
    resolved altitude of that interface (the explicit altitude of its node
    when declared, the converted altitude otherwise) rounded to a nearest
    integer, no integer being closer.  12.6 gives 13 and 12.4 gives 12. *)
Theorem published_altitude_rounded self moved_netifs self' channel event entry :
  Nodes.setnempositions moved_netifs self = (inr tt, self')
  ∨ (∃ netif, moved_netifs = [netif]
       ∧ Nodes.setnemposition netif self = (inr tt, self')) →
  sink_calls self' = sink_calls self ++ [(channel, event)] →
  entry ∈ event →
  (∃ netif, netif ∈ moved_netifs
     ∧ Nodes.getnemid self netif = Some (Nodes.nem entry)
     ∧ Nodes.altitude entry = Nodes.py_round (resolved_altitude self netif)
     ∧ (∀ a, Nodes.alt (Nodes.position (Nodes.node netif)) = Some a →
             resolved_altitude self netif = a)
     ∧ ∀ n : Z,
         (Qabs (inject_Z (Nodes.altitude entry) - resolved_altitude self netif)
          <= Qabs (inject_Z n - resolved_altitude self netif))%Q)
  ∧ Nodes.py_round (126 # 10) = 13%Z
  ∧ Nodes.py_round (124 # 10) = 12%Z.
Proof.
  intros Hrun Hcalls Hin. split; [|split; reflexivity].
  destruct (published_event _ _ _ _ _ Hrun Hcalls) as [_ ->].
  apply resolved_entries_elem in Hin as (netif & Hmem & Hid & Halt).
  exists netif. repeat split; try done.
  - intros a Ha. unfold resolved_altitude. by rewrite Ha.
  - intros n. rewrite Halt. apply py_round_nearest.
Qed.

Lemma published_altitude_rounded_witness :
  Nodes.setnempositions [netif_A; netif_B] example_net
  = (inr tt,
     Nodes.with_service
       (λ _, Some [(0%Z, [Nodes.mkLocationEntry 10 2 1 3])]) example_net)
  ∧ Nodes.altitude (Nodes.mkLocationEntry 10 2 1 3)
    = Nodes.py_round (34 # 10)
  ∧ Nodes.py_round (126 # 10) = 13%Z
  ∧ Nodes.py_round (124 # 10) = 12%Z.
Proof.
  split; [reflexivity|]. split; [reflexivity|].
  refine (proj2 (published_altitude_rounded example_net [netif_A; netif_B]
    (Nodes.with_service
       (λ _, Some [(0%Z, [Nodes.mkLocationEntry 10 2 1 3])]) example_net)
    0%Z [Nodes.mkLocationEntry 10 2 1 3] (Nodes.mkLocationEntry 10 2 1 3)
    _ _ _)).
  - left. reflexivity.
  - reflexivity.
  - apply list_elem_of_here.
Defined.

(** ** Attaching and updating models *)

(** C6 as stated fails: attaching a model that is neither a radio-medium nor
    a mobility model raises no error. *)
Lemma setmodel_other_role_no_error :
  ¬ (∀ self model config,
       ConfigurableOptions.config_type model ≠ WIRELESS →
       ConfigurableOptions.config_type model ≠ MOBILITY →
       ∃ e self', Nodes.setmodel model config self = (inl e, self')).
Proof.
  intros Hclaim.
  destruct (Hclaim example_net utility_model []) as (e & self' & Hrun);
    [done | done | discriminate Hrun].
Qed.

(** C6, amended: attaching a model whose role is neither radio medium nor
    mobility returns normally and leaves the node, with its radio and
    mobility models, unchanged. *)
Theorem setmodel_other_role_ignored self model config :
  ConfigurableOptions.config_type model ≠ WIRELESS →
  ConfigurableOptions.config_type model ≠ MOBILITY →
  Nodes.setmodel model config self = (inr tt, self).
Proof.
  intros Hw Hm. unfold Nodes.setmodel.
  destruct (decide _) as [|_]; [done|].
  destruct (decide _) as [|_]; [done|]. done.
Qed.

Lemma setmodel_other_role_ignored_witness :
  ConfigurableOptions.config_type utility_model ≠ WIRELESS
  ∧ ConfigurableOptions.config_type utility_model ≠ MOBILITY
  ∧ Nodes.setmodel utility_model [("range", "400")] example_net
    = (inr tt, example_net).
Proof.
  split; [done|]. split; [done|].
  apply (setmodel_other_role_ignored example_net utility_model); done.
Defined.

(** The two roles the node supports: the new instance replaces the radio
    model, respectively the mobility model, and receives the configuration. *)
Lemma setmodel_wireless self model config :
  ConfigurableOptions.config_type model = WIRELESS →
  Nodes.setmodel model config self
  = (inr tt,
     Nodes.with_model
       (λ _, Some (Nodes.call (Nodes.update_config config)
                     (Nodes.new_model model (Nodes.id self)))) self).
Proof.
  intros Hw. unfold Nodes.setmodel. by rewrite decide_True.
Qed.

Lemma setmodel_mobility self model config :
  ConfigurableOptions.config_type model = MOBILITY →
  Nodes.setmodel model config self
  = (inr tt,
     Nodes.with_mobility
       (λ _, Some (Nodes.call (Nodes.update_config config)
                     (Nodes.new_model model (Nodes.id self)))) self).
Proof.
  intros Hm. unfold Nodes.setmodel.
  rewrite decide_False by congruence. by rewrite decide_True.
Qed.

(** C7: with no radio model attached, updating the model raises the error
    and changes nothing; with a radio model attached, nothing is raised and
    the update is passed to that model: the calls the attached model has
    received grow by exactly one, the last, which is [set_configs] with the
    configuration given and the id of the node, while the class and the id of
    the model and every other field of the node stay as they were. *)
Theorem updatemodel_forwards_or_raises self config :
  (Nodes.model self = None →
   Nodes.updatemodel config self
   = (inl (ValueError "no model set to update for node(%s)" [Nodes.id self]),
      self))
  ∧ (∀ attached, Nodes.model self = Some attached →
     Nodes.updatemodel config self
     = (inr tt,
        Nodes.mk (Nodes.session self) (Nodes.id self) (Nodes.nemidmap self)
          (Some (Nodes.mkWirelessModel (Nodes.cls attached)
                   (Nodes._id attached)
                   (Nodes.calls attached
                    ++ [Nodes.set_configs config (Nodes.id self)])))
          (Nodes.mobility self))).
Proof.
  unfold Nodes.updatemodel, bind, gets, raise, modify. split.
  - by intros ->.
  - intros attached Hm. rewrite Hm. unfold Nodes.with_model. by rewrite Hm.
Qed.

Lemma updatemodel_forwards_or_raises_witness :
  Nodes.model example_net = None
  ∧ Nodes.updatemodel [("range", "400")] example_net
    = (inl (ValueError "no model set to update for node(%s)" [7%Z]),
       example_net)
  ∧ Nodes.model example_net_with_model
    = Some (Nodes.mkWirelessModel basic_range 7 [])
  ∧ Nodes.updatemodel [("range", "400")] example_net_with_model
    = (inr tt,
       Nodes.mk (Nodes.mkSession (Some []) example_getgeo) 7 [(0%nat, 10%Z)]
         (Some (Nodes.mkWirelessModel basic_range 7
                  [Nodes.set_configs [("range", "400")] 7]))
         None).
Proof.
  split; [reflexivity|]. split.
  { apply (proj1 (updatemodel_forwards_or_raises example_net _)). reflexivity. }
  split; [reflexivity|].
  exact (proj2 (updatemodel_forwards_or_raises example_net_with_model
                  [("range", "400")])
           (Nodes.mkWirelessModel basic_range 7 []) eq_refl).
Defined.

(** * Further properties of [ConfigurableManager] *)

Lemma get_config_run s _id node_id config_type default :
  Config.get_config _id node_id config_type default s
  = (inr match stored_dict s node_id config_type ≫= OrderedDict.get _id with
         | Some value => Some value
         | None => default
         end, s).
Proof.
  unfold Config.get_config, stored_dict.
  unfold bind at 1. rewrite get_configs_run.
  destruct (stored_ref s node_id config_type) as [r|]; simpl; [|done].
  unfold bind, Config.truthy_config, gets.
  destruct (Config.heap s !! r) as [[|kv d]|] eqn:Hd; simpl;
    rewrite ?Hd; reflexivity.
Qed.

(** What [set_config] does to a manager whose stored references are live:
    the dictionary stored for the node and the type, a new one if there was
    none, has the value assigned; nothing else changes. *)
Lemma set_config_run s _id value node_id config_type :
  heap_closed s →
  ∃ r s',
    Config.set_config _id value node_id config_type s = (inr tt, s')
    ∧ stored_ref s' node_id config_type = Some r
    ∧ Config.heap s' !! r
      = Some (OrderedDict.setitem _id value
                (default [] (stored_dict s node_id config_type)))
    ∧ (stored_ref s node_id config_type = Some r
       ∨ stored_ref s node_id config_type = None ∧ Config.heap s !! r = None)
    ∧ (∀ n t, (n, t) ≠ (node_id, config_type) →
         stored_ref s' n t = stored_ref s n t)
    ∧ (∀ r', r' ≠ r → Config.heap s' !! r' = Config.heap s !! r')
    ∧ Config.models s' = Config.models s
    ∧ Config.node_models s' = Config.node_models s.
Proof.
  intros Hclosed. unfold Config.set_config.
  unfold bind at 1. unfold modify at 1.
  unfold bind at 1. unfold gets at 1. simpl. rewrite lookup_insert_eq. simpl.
  assert (Hexisting : default ∅ (Config.node_configurations s !! node_id)
                        !! config_type
                      = stored_ref s node_id config_type).
  { unfold stored_ref.
    by destruct (Config.node_configurations s !! node_id). }
  rewrite Hexisting.
  assert (Hother : ∀ (nc : gmap Config.type_key Config.loc) n t,
    (n, t) ≠ (node_id, config_type) →
    (∀ t', t' ≠ config_type →
       nc !! t' = default ∅ (Config.node_configurations s !! node_id) !! t') →
    (node_configs ← <[node_id := nc]> (Config.node_configurations s) !! n;
     node_configs !! t)
    = stored_ref s n t).
  { intros nc n t Hne Hnc. unfold stored_ref.
    destruct (decide (n = node_id)) as [->|Hn].
    - rewrite lookup_insert_eq. simpl. rewrite Hnc by congruence.
      by destruct (Config.node_configurations s !! node_id).
    - by rewrite lookup_insert_ne. }
  destruct (stored_ref s node_id config_type) as [r|] eqn:Href.
  - destruct (Hclosed _ _ _ Href) as [d Hd].
    exists r. eexists. split; [reflexivity|].
    unfold stored_dict. rewrite Href. simpl. rewrite Hd. simpl.
    split.
    { unfold stored_ref. simpl. rewrite lookup_insert_eq. simpl.
      by rewrite Hexisting. }
    split; [by rewrite lookup_alter_eq, Hd|].
    split; [by left|].
    split; [intros n t Hne; by apply Hother|].
    split; [intros r' Hr'; by rewrite lookup_alter_ne|]. done.
  - exists (fresh (dom (Config.heap s))). eexists. split; [reflexivity|].
    unfold stored_dict. rewrite Href. simpl.
    assert (Hfresh : Config.heap s !! fresh (dom (Config.heap s)) = None).
    { apply not_elem_of_dom, is_fresh. }
    split.
    { unfold stored_ref. simpl. rewrite !lookup_insert_eq. simpl.
      by rewrite lookup_insert_eq. }
    split; [by rewrite lookup_alter_eq, lookup_insert_eq|].
    split; [by right|].
    split.
    { intros n t Hne. unfold stored_ref at 1. simpl.
      rewrite lookup_insert_eq. simpl. rewrite insert_insert_eq.
      apply Hother; [done|].
      intros t' Ht'. by rewrite lookup_insert_ne. }
    split; [|done].
    intros r' Hr'. rewrite lookup_alter_ne by done.
    by rewrite lookup_insert_ne.
Qed.

Lemma example_manager_closed : heap_closed example_manager.
Proof.
  intros node_id config_type r Href. unfold stored_ref in Href.
  simpl in Href. by rewrite lookup_empty in Href.
Qed.

Lemma stored_ref_stored_at s r node_id config_type n t :
  stored_ref (stored_at r node_id config_type s) n t
  = if decide ((n, t) = (node_id, config_type)) then Some r
    else stored_ref s n t.
Proof.
  unfold stored_ref. simpl.
  destruct (decide (n = node_id)) as [->|Hn].
  - rewrite lookup_insert_eq. simpl.
    destruct (decide (t = config_type)) as [->|Ht].
    + rewrite lookup_insert_eq. by rewrite decide_True.
    + rewrite lookup_insert_ne by done. rewrite decide_False by congruence.
      by destruct (Config.node_configurations s !! node_id).
  - rewrite lookup_insert_ne by done. by rewrite decide_False by congruence.
Qed.

(** X1: on a manager whose stored references are live, a value written with
    [set_config] is what [get_config] returns for the same key, node and
    type, whatever default is passed; the read returns normally and leaves
    the manager unchanged. *)
Theorem set_config_then_get_config s _id value node_id config_type default :
  heap_closed s →
  ∃ s',
    Config.set_config _id value node_id config_type s = (inr tt, s')
    ∧ Config.get_config _id node_id config_type default s'
      = (inr (Some value), s').
Proof.
  intros Hclosed.
  destruct (set_config_run s _id value node_id config_type Hclosed)
    as (r & s' & Hrun & Href & Hheap & _).
  exists s'. split; [done|].
  rewrite get_config_run. unfold stored_dict. rewrite Href. simpl.
  rewrite Hheap. simpl. rewrite get_setitem. by rewrite decide_True.
Qed.

Lemma set_config_then_get_config_witness :
  heap_closed example_store
  ∧ ∃ s',
      Config.set_config "txpower" "3" 1 (inr "basic-range") example_store
      = (inr tt, s')
      ∧ Config.get_config "txpower" 1 (inr "basic-range") None s'
        = (inr (Some "3"), s').
Proof.
  split; [apply example_store_closed|].
  apply (set_config_then_get_config example_store "txpower" "3" 1
           (inr "basic-range") None), example_store_closed.
Defined.

(** X2: [set_config] changes one key of one dictionary: for every other key
    of the same node and type [get_config] returns what it returned before,
    and the dictionary stored for any other node or type keeps its contents,
    unless it is the very dictionary object that was written. *)
Theorem set_config_frame s _id value node_id config_type :
  heap_closed s →
  ∃ s',
    Config.set_config _id value node_id config_type s = (inr tt, s')
    ∧ (∀ _id' default, _id' ≠ _id →
         (Config.get_config _id' node_id config_type default s').1
         = (Config.get_config _id' node_id config_type default s).1)
    ∧ (∀ n t, (n, t) ≠ (node_id, config_type) →
         stored_ref s n t = None
         ∨ stored_ref s n t ≠ stored_ref s node_id config_type →
         stored_dict s' n t = stored_dict s n t).
Proof.
  intros Hclosed.
  destruct (set_config_run s _id value node_id config_type Hclosed)
    as (r & s' & Hrun & Href & Hheap & Hwhere & Hother & Hlive & _).
  exists s'. split; [done|]. split.
  - intros _id' default Hne. rewrite !get_config_run. simpl.
    unfold stored_dict at 1. rewrite Href. simpl. rewrite Hheap. simpl.
    rewrite get_setitem, decide_False by done.
    by destruct (stored_dict s node_id config_type).
  - intros n t Hne Hunshared. unfold stored_dict. rewrite Hother by done.
    destruct (stored_ref s n t) as [r'|] eqn:Hr'; [|done]. simpl.
    apply Hlive. intros ->.
    destruct Hwhere as [Hsame|[_ Hfresh]].
    + destruct Hunshared as [|Hunshared]; [done|]. by rewrite Hsame in Hunshared.
    + destruct (Hclosed _ _ _ Hr') as [? ?]. congruence.
Qed.

Lemma set_config_frame_witness :
  heap_closed example_store
  ∧ ∃ s',
      Config.set_config "txpower" "3" 1 (inr "basic-range") example_store
      = (inr tt, s')
      ∧ (Config.get_config "range" 1 (inr "basic-range") None s').1
        = inr (Some "400")
      ∧ stored_dict s' 0 (inr "basic-range") = Some [("range", "400")].
Proof.
  split; [apply example_store_closed|].
  destruct (set_config_frame example_store "txpower" "3" 1
              (inr "basic-range") example_store_closed)
    as (s' & Hrun & Hkeys & Hothers).
  exists s'. split; [exact Hrun|]. split.
  - by rewrite (Hkeys "range" None).
  - rewrite (Hothers 0%Z (inr "basic-range")); [by vm_compute|done|].
    right. by vm_compute.
Defined.

(** X3: [set_configs] stores the dictionary object it is given, not a copy:
    when the same dictionary has been stored for two nodes (or types), a
    value written with [set_config] for the one is read back with
    [get_config] for the other. *)
Theorem set_config_shared_dictionary s r _id value n1 t1 n2 t2 default :
  heap_closed s →
  is_Some (Config.heap s !! r) →
  ∃ s',
    Config.set_config _id value n1 t1
      (stored_at r n2 t2 (stored_at r n1 t1 s)) = (inr tt, s')
    ∧ Config.get_config _id n2 t2 default s' = (inr (Some value), s').
Proof.
  intros Hclosed Hlive.
  assert (Hclosed2 : heap_closed (stored_at r n2 t2 (stored_at r n1 t1 s))).
  { by repeat apply heap_closed_stored_at. }
  assert (Hr1 : stored_ref (stored_at r n2 t2 (stored_at r n1 t1 s)) n1 t1
                = Some r).
  { rewrite !stored_ref_stored_at. by repeat case_decide. }
  assert (Hr2 : stored_ref (stored_at r n2 t2 (stored_at r n1 t1 s)) n2 t2
                = Some r).
  { rewrite stored_ref_stored_at. by rewrite decide_True. }
  destruct (set_config_run _ _id value n1 t1 Hclosed2)
    as (r0 & s' & Hrun & Href & Hheap & Hwhere & Hother & _).
  assert (r0 = r) as ->.
  { destruct Hwhere as [Hsame|[Hnone _]]; congruence. }
  exists s'. split; [done|].
  rewrite get_config_run. unfold stored_dict at 1.
  assert (Href2 : stored_ref s' n2 t2 = Some r).
  { destruct (decide ((n2, t2) = (n1, t1))) as [[= -> ->]|Hne]; [done|].
    by rewrite Hother. }
  rewrite Href2. simpl. rewrite Hheap. simpl.
  rewrite get_setitem. by rewrite decide_True.
Qed.

Lemma set_config_shared_dictionary_witness :
  heap_closed example_store
  ∧ is_Some (Config.heap example_store !! 1%positive)
  ∧ ∃ s',
      Config.set_config "txpower" "3" 8 (inr "basic-range")
        (stored_at 1%positive 9 (inr "basic-range")
           (stored_at 1%positive 8 (inr "basic-range") example_store))
      = (inr tt, s')
      ∧ Config.get_config "txpower" 9 (inr "basic-range") None s'
        = (inr (Some "3"), s').
Proof.
  split; [apply example_store_closed|].
  split; [eexists; vm_compute; reflexivity|].
  apply (set_config_shared_dictionary example_store 1%positive);
    [apply example_store_closed | eexists; vm_compute; reflexivity].
Defined.

(** X4: [get_config] never raises and never changes the manager.  It
    returns the stored value when a dictionary is stored for the node and the
    type and holds the key, and the given default in every other case: no
    configuration for the node, none for the type, an empty dictionary, or a
    dictionary without the key. *)
Theorem get_config_stored_or_default s _id node_id config_type default :
  ∃ result,
    Config.get_config _id node_id config_type default s = (inr result, s)
    ∧ (∀ d value,
         stored_dict s node_id config_type = Some d →
         OrderedDict.get _id d = Some value → result = Some value)
    ∧ (stored_dict s node_id config_type = None → result = default)
    ∧ (∀ d,
         stored_dict s node_id config_type = Some d →
         OrderedDict.get _id d = None → result = default).
Proof.
  eexists. split; [apply get_config_run|].
  split; [|split].
  - intros d value -> Hget. simpl. by rewrite Hget.
  - by intros ->.
  - intros d -> Hget. simpl. by rewrite Hget.
Qed.

Lemma get_config_stored_or_default_witness :
  Config.get_config "range" 1 (inr "basic-range") (Some "0") example_store
  = (inr (Some "400"), example_store)
  ∧ Config.get_config "range" 7 (inr "basic-range") (Some "0") example_store
    = (inr (Some "0"), example_store)
  ∧ Config.get_config "txpower" 1 (inr "basic-range") None example_store
    = (inr None, example_store).
Proof.
  destruct (get_config_stored_or_default example_store "range" 1
              (inr "basic-range") (Some "0")) as (r1 & -> & H1 & _).
  destruct (get_config_stored_or_default example_store "range" 7
              (inr "basic-range") (Some "0")) as (r2 & -> & _ & H2 & _).
  destruct (get_config_stored_or_default example_store "txpower" 1
              (inr "basic-range") None) as (r3 & -> & _ & _ & H3).
  rewrite (H1 [("range", "400")] "400") by by vm_compute.
  rewrite H2 by by vm_compute.
  rewrite (H3 [("range", "400")]) by by vm_compute.
  done.
Defined.

(** X5: [set_configs] replaces what is stored for the node and the type by
    the dictionary it is given: [get_configs] then returns that very
    dictionary object (also when it is empty), the entries of every other
    node and type are returned as before, and no dictionary object is
    modified. *)
Theorem set_configs_then_get_configs s config node_id config_type :
  ∃ s',
    Config.set_configs config node_id config_type s = (inr tt, s')
    ∧ Config.get_configs node_id config_type s' = (inr (Some config), s')
    ∧ (∀ n t, (n, t) ≠ (node_id, config_type) →
         (Config.get_configs n t s').1 = (Config.get_configs n t s).1)
    ∧ Config.heap s' = Config.heap s.
Proof.
  exists (stored_at config node_id config_type s).
  split; [done|]. split; [|split; [|done]].
  - rewrite get_configs_run, stored_ref_stored_at. by rewrite decide_True.
  - intros n t Hne. rewrite !get_configs_run. simpl.
    rewrite stored_ref_stored_at. by rewrite decide_False.
Qed.

(** ** Reset, for a node id other than 0 *)

(** X6: for a node id other than 0, [config_reset] removes what is stored
    for that node, for every type, and nothing else: the entries of every
    other node, the dictionary objects, the registry and the recorded models
    are as before. *)
Theorem config_reset_one_node s n :
  n ≠ 0%Z →
  ∃ s',
    Config.config_reset (Some n) s = (inr tt, s')
    ∧ (∀ t, Config.get_configs n t s' = (inr None, s'))
    ∧ (∀ n' t, n' ≠ n → stored_ref s' n' t = stored_ref s n' t)
    ∧ Config.heap s' = Config.heap s
    ∧ Config.models s' = Config.models s
    ∧ Config.node_models s' = Config.node_models s.
Proof.
  intros Hn. eexists. split; [by apply config_reset_node|].
  split; [|split; [|done]].
  - intros t. rewrite get_configs_run. unfold stored_ref. simpl.
    by rewrite lookup_delete_eq.
  - intros n' t Hne. unfold stored_ref. simpl.
    by rewrite lookup_delete_ne.
Qed.

Lemma config_reset_one_node_witness :
  1%Z ≠ 0%Z
  ∧ ∃ s',
      Config.config_reset (Some 1%Z) example_store = (inr tt, s')
      ∧ stored_dict s' 1 (inr "basic-range") = None
      ∧ stored_dict s' 0 (inr "basic-range") = Some [("range", "400")].
Proof.
  split; [done|].
  destruct (config_reset_one_node example_store 1) as (s' & Hrun & Hgone & Hkept & Hheap & _);
    [done|].
  exists s'. split; [exact Hrun|]. split.
  - specialize (Hgone (inr "basic-range")). rewrite get_configs_run in Hgone.
    injection Hgone as Hgone. unfold stored_dict. by rewrite Hgone.
  - unfold stored_dict. rewrite Hkept by done. rewrite Hheap. by vm_compute.
Defined.

(** X7: a reset that covers a node (no argument, the id 0, or the id of the
    node) forgets its overrides but not its model: [node_models] is
    unchanged, and the next [get_model_config] for the node and a registered
    model returns a dictionary holding exactly the default values. *)
Theorem config_reset_forgets_overrides s arg node_id model_name cls :
  Config.models s !! model_name = Some cls →
  arg = None ∨ arg = Some 0%Z ∨ arg = Some node_id →
  ∃ s1 r s2,
    Config.config_reset arg s = (inr tt, s1)
    ∧ Config.node_models s1 = Config.node_models s
    ∧ Config.get_model_config node_id model_name s1 = (inr r, s2)
    ∧ Config.heap s2 !! r = Some (ConfigurableOptions.default_values cls).
Proof.
  intros Hcls Harg.
  assert (Hreset : ∃ s1,
    Config.config_reset arg s = (inr tt, s1)
    ∧ Config.node_models s1 = Config.node_models s
    ∧ Config.models s1 = Config.models s
    ∧ stored_config s1 node_id model_name = None).
  { assert (Hall : stored_config
              (Config.with_node_configurations (λ _, ∅) s) node_id model_name
            = None).
    { unfold stored_config, stored_ref. simpl. by rewrite lookup_empty. }
    destruct Harg as [-> | [-> | ->]]; [by eexists | by eexists |].
    destruct (decide (node_id = 0%Z)) as [->|Hn]; [by eexists|].
    eexists. split; [by apply config_reset_node|].
    split; [done|]. split; [done|].
    unfold stored_config, stored_ref. simpl. by rewrite lookup_delete_eq. }
  destruct Hreset as (s1 & Hrun & Hnm & Hm & Hnone).
  exists s1. eexists _, _. split; [done|]. split; [done|].
  split; [apply (get_model_config_miss s1 node_id model_name cls); [|auto]|].
  - by rewrite Hm.
  - simpl. by rewrite lookup_insert_eq.
Qed.

Lemma config_reset_forgets_overrides_witness :
  Config.models example_store !! "basic-range" = Some basic_range
  ∧ (Some 1%Z = None ∨ Some 1%Z = Some 0%Z ∨ Some 1%Z = Some 1%Z)
  ∧ stored_config example_store 1 "basic-range" = Some [("range", "400")]
  ∧ ∃ s1 r s2,
      Config.config_reset (Some 1%Z) example_store = (inr tt, s1)
      ∧ Config.node_models s1 = Config.node_models example_store
      ∧ Config.get_model_config 1 "basic-range" s1 = (inr r, s2)
      ∧ Config.heap s2 !! r
        = Some (ConfigurableOptions.default_values basic_range).
Proof.
  split; [by vm_compute|]. split; [by right; right|].
  split; [by vm_compute|].
  apply (config_reset_forgets_overrides example_store (Some 1%Z) 1
           "basic-range" basic_range); [by vm_compute | by right; right].
Defined.

Lemma set_configs_then_get_configs_witness :
  ∃ s',
    Config.set_configs 1%positive 8 (inr "rf-pipe") example_store
    = (inr tt, s')
    ∧ Config.get_configs 8 (inr "rf-pipe") s' = (inr (Some 1%positive), s')
    ∧ (Config.get_configs 1 (inr "basic-range") s').1
      = (Config.get_configs 1 (inr "basic-range") example_store).1
    ∧ Config.heap s' = Config.heap example_store.
Proof.
  destruct (set_configs_then_get_configs example_store 1%positive 8
              (inr "rf-pipe")) as (s' & Hrun & Hget & Hothers & Hheap).
  exists s'. split; [exact Hrun|]. split; [exact Hget|].
  split; [by apply Hothers | exact Hheap].
Defined.

(** ** What [set_model_config] leaves alone *)

(** X8: on a manager whose stored references are live, [set_model_config]
    for a registered model records the model as the one of the node and
    changes nothing that belongs to another node or type: the model recorded
    for every other node, the registry, and the dictionary stored for any
    other node or type, with its contents, unless that is the very dictionary
    object stored for the node and the model. *)
Theorem set_model_config_frame s node_id model_name cls config :
  Config.models s !! model_name = Some cls →
  heap_closed s →
  ∃ s',
    Config.set_model_config node_id model_name config s = (inr tt, s')
    ∧ Config.node_models s' !! node_id = Some model_name
    ∧ (∀ n, n ≠ node_id →
         Config.node_models s' !! n = Config.node_models s !! n)
    ∧ Config.models s' = Config.models s
    ∧ (∀ n t, (n, t) ≠ (node_id, inr model_name) →
         stored_ref s' n t = stored_ref s n t
         ∧ (stored_ref s n t = None
            ∨ stored_ref s n t ≠ stored_ref s node_id (inr model_name) →
            stored_dict s' n t = stored_dict s n t)).
Proof.
  intros Hcls Hclosed.
  destruct (get_model_config_run s node_id model_name cls Hcls)
    as (r & s1 & Hget & Href & Hheap & Hmodels & Hnm).
  assert (Hs1 :
    (s1 = s ∧ stored_ref s node_id (inr model_name) = Some r)
    ∨ (s1 = stored_at r node_id (inr model_name)
              (Config.with_heap
                 <[r := ConfigurableOptions.default_values cls]> s)
       ∧ Config.heap s !! r = None)).
  { destruct (stored_config s node_id model_name) as [[|kv d]|] eqn:Hstored.
    - right.
      rewrite (get_model_config_miss s node_id model_name cls) in Hget by auto.
      injection Hget as <- <-. split; [done|].
      apply not_elem_of_dom, is_fresh.
    - left. unfold stored_config in Hstored.
      destruct (stored_ref s node_id (inr model_name)) as [r0|] eqn:Href0;
        [|done].
      simpl in Hstored.
      rewrite (get_model_config_hit s node_id model_name cls r0 kv d) in Hget
        by done.
      by injection Hget as <- <-.
    - right.
      rewrite (get_model_config_miss s node_id model_name cls) in Hget by auto.
      injection Hget as <- <-. split; [done|].
      apply not_elem_of_dom, is_fresh. }
  eexists. split; [by eapply set_model_config_state|].
  split; [simpl; by rewrite Hnm, lookup_insert_eq|].
  split; [intros n Hn; simpl; by rewrite Hnm, lookup_insert_ne|].
  split; [done|].
  intros n t Hne.
  assert (Hrefs : stored_ref
            (stored_at r node_id (inr model_name)
               (Config.with_node_models <[node_id := model_name]>
                  (Config.with_heap
                     <[r := merged (default [] config)
                              (current_or_default cls
                                 (stored_config s node_id model_name))]> s1)))
            n t
          = stored_ref s n t).
  { rewrite stored_ref_stored_at, decide_False by done.
    destruct Hs1 as [[-> _]|[-> _]]; [done|].
    change (stored_ref (stored_at r node_id (inr model_name)
              (Config.with_heap
                 <[r := ConfigurableOptions.default_values cls]> s)) n t
            = stored_ref s n t).
    by rewrite stored_ref_stored_at, decide_False. }
  split; [done|].
  intros Hunshared. unfold stored_dict. rewrite Hrefs.
  destruct (stored_ref s n t) as [r'|] eqn:Hr'; [|done]. simpl.
  assert (Hdistinct : r ≠ r').
  { intros ->. destruct Hs1 as [[_ Hsame]|[_ Hfresh]].
    - destruct Hunshared as [|Hunshared]; [done|]. by rewrite Hsame in Hunshared.
    - destruct (Hclosed _ _ _ Hr') as [? ?]. congruence. }
  rewrite lookup_insert_ne by done.
  destruct Hs1 as [[-> _]|[-> _]]; [done|]. simpl.
  by rewrite lookup_insert_ne.
Qed.

Lemma set_model_config_frame_witness :
  Config.models example_store !! "basic-range" = Some basic_range
  ∧ heap_closed example_store
  ∧ ∃ s',
      Config.set_model_config 1 "basic-range" (Some [("range", "50")])
        example_store = (inr tt, s')
      ∧ Config.node_models s' !! 1%Z = Some "basic-range"
      ∧ stored_dict s' 0 (inr "basic-range") = Some [("range", "400")].
Proof.
  split; [by vm_compute|]. split; [apply example_store_closed|].
  destruct (set_model_config_frame example_store 1 "basic-range" basic_range
              (Some [("range", "50")]))
    as (s' & Hrun & Hnm & _ & _ & Hothers);
    [by vm_compute | apply example_store_closed |].
  exists s'. split; [exact Hrun|]. split; [exact Hnm|].
  destruct (Hothers 0%Z (inr "basic-range")) as [_ Hdict]; [done|].
  rewrite Hdict; [by vm_compute|]. right. by vm_compute.
Defined.

(** ** Default values *)

Lemma get_of_pairs {K V} `{EqDecision K} (pairs : list (K * V)) k :
  OrderedDict.get k (OrderedDict.of_pairs pairs)
  = snd <$> last (filter (λ kv, kv.1 = k) pairs).
Proof.
  unfold OrderedDict.of_pairs.
  induction pairs as [|kv pairs IH] using rev_ind; [done|].
  rewrite fold_left_app. simpl. rewrite get_setitem, filter_app.
  rewrite filter_cons, filter_nil.
  destruct (decide (kv.1 = k)) as [Hk|Hk].
  - by rewrite last_snoc.
  - by rewrite app_nil_r.
Qed.

Lemma keys_of_pairs {K V} `{EqDecision K} (pairs : list (K * V)) k :
  k ∈ OrderedDict.keys (OrderedDict.of_pairs pairs) ↔ k ∈ pairs.*1.
Proof.
  unfold OrderedDict.of_pairs.
  induction pairs as [|kv pairs IH] using rev_ind.
  - done.
  - rewrite fold_left_app. simpl. rewrite keys_setitem_elem, IH.
    rewrite fmap_app, elem_of_app. simpl. rewrite list_elem_of_singleton.
    tauto.
Qed.

(** X9: the default values of a model class hold one item per option id,
    with no id repeated; when several options are declared with the same id,
    the default of the last one counts. *)
Theorem default_values_last_declaration cls key :
  OrderedDict.get key (ConfigurableOptions.default_values cls)
  = Configuration.default
    <$> last (filter (λ config, Configuration.id config = key)
                (ConfigurableOptions.configurations cls))
  ∧ NoDup (OrderedDict.keys (ConfigurableOptions.default_values cls))
  ∧ (key ∈ OrderedDict.keys (ConfigurableOptions.default_values cls)
     ↔ ∃ config, config ∈ ConfigurableOptions.configurations cls
                 ∧ Configuration.id config = key).
Proof.
  split; [|split; [apply default_values_NoDup|]].
  - unfold ConfigurableOptions.default_values. rewrite get_of_pairs.
    generalize (ConfigurableOptions.configurations cls) as configs.
    intros configs.
    induction configs as [|config configs IH] using rev_ind; [done|].
    rewrite fmap_app, !filter_app. simpl. rewrite !filter_cons, !filter_nil.
    simpl. destruct (decide (Configuration.id config = key)) as [Hk|Hk].
    + by rewrite !last_snoc.
    + by rewrite !app_nil_r.
  - unfold ConfigurableOptions.default_values. rewrite keys_of_pairs.
    rewrite <- list_fmap_compose, list_elem_of_fmap. simpl.
    split; intros (config & H1 & H2); exists config; done.
Qed.

(** ** Live references, for every method *)

Lemma set_config_closed s _id value node_id config_type :
  heap_closed s →
  heap_closed (Config.set_config _id value node_id config_type s).2.
Proof.
  intros Hclosed.
  destruct (set_config_run s _id value node_id config_type Hclosed)
    as (r & s' & Hrun & Href & Hheap & _ & Hother & Hlive & _).
  rewrite Hrun. simpl. intros n t r0 Hr0.
  destruct (decide (r0 = r)) as [->|Hne]; [by rewrite Hheap|].
  rewrite Hlive by done.
  destruct (decide ((n, t) = (node_id, config_type))) as [[= -> ->]|Hkey];
    [congruence|].
  rewrite Hother in Hr0 by done. by apply (Hclosed n t).
Qed.

(** X10: in a new manager every stored reference denotes a live dictionary
    object, and every method keeps it so: [set_config], [get_config],
    [set_configs] when given a live dictionary, [get_model_config],
    [set_model_config] and [config_reset], whether they return or raise. *)
Theorem stored_references_stay_live :
  heap_closed Config.init
  ∧ ∀ s,
      heap_closed s →
      (∀ _id value node_id config_type,
         heap_closed (Config.set_config _id value node_id config_type s).2)
      ∧ (∀ _id node_id config_type default,
           heap_closed
             (Config.get_config _id node_id config_type default s).2)
      ∧ (∀ config node_id config_type,
           is_Some (Config.heap s !! config) →
           heap_closed (Config.set_configs config node_id config_type s).2)
      ∧ (∀ node_id model_name,
           heap_closed (Config.get_model_config node_id model_name s).2)
      ∧ (∀ node_id model_name config,
           heap_closed
             (Config.set_model_config node_id model_name config s).2)
      ∧ (∀ node_id, heap_closed (Config.config_reset node_id s).2).
Proof.
  split; [apply init_closed|].
  intros s Hclosed. repeat split.
  - intros. by apply set_config_closed.
  - intros. by rewrite get_config_run.
  - intros. by apply heap_closed_stored_at.
  - intros. by apply get_model_config_closed.
  - intros. by apply set_model_config_closed.
  - intros. by apply config_reset_closed.
Qed.

Lemma stored_references_stay_live_witness :
  heap_closed example_manager
  ∧ heap_closed
      (Config.set_config "range" "400" 1 (inr "basic-range")
         example_manager).2
  ∧ heap_closed
      (Config.set_model_config 1 "basic-range" None example_manager).2.
Proof.
  split; [apply example_manager_closed|].
  destruct (proj2 stored_references_stay_live example_manager
              example_manager_closed) as (Hset & _ & _ & _ & Hmodel & _).
  split; [apply Hset | apply Hmodel].
Defined.

(** * Properties of [ModelManager.set_model] *)

Lemma merged_nil (config d : odict) : merged config d = [] → d = [].
Proof.
  intros Hnil. apply get_all_None. intros key.
  assert (Hget := get_merged config d key). rewrite Hnil in Hget.
  simpl in Hget. by destruct (OrderedDict.get key config).
Qed.

Lemma setmodel_returns self model config :
  (Nodes.setmodel model config self).1 = inr tt.
Proof. unfold Nodes.setmodel. by repeat case_decide. Qed.

(** The read that follows a write returns a dictionary with the contents
    just stored. *)
Lemma set_model_run s node model_class config cls :
  Config.models s !! ConfigurableOptions.name model_class = Some cls →
  ∃ s',
    Models.set_model model_class config (s, node)
    = (inr tt,
       (s',
        (Nodes.setmodel model_class
           (merged (default [] config)
              (current_or_default cls
                 (stored_config s (Nodes.id node)
                    (ConfigurableOptions.name model_class))))
           node).2))
    ∧ stored_config s' (Nodes.id node) (ConfigurableOptions.name model_class)
      = Some (merged (default [] config)
                (current_or_default cls
                   (stored_config s (Nodes.id node)
                      (ConfigurableOptions.name model_class))))
    ∧ Config.node_models s' !! Nodes.id node
      = Some (ConfigurableOptions.name model_class).
Proof.
  intros Hcls.
  set (name := ConfigurableOptions.name model_class) in *.
  set (d := merged (default [] config)
              (current_or_default cls (stored_config s (Nodes.id node) name))).
  destruct (set_model_config_run s (Nodes.id node) name cls config Hcls)
    as (s1 & Hset & Hstored1 & Hmodels1 & Hnm1).
  fold d in Hstored1.
  destruct (get_model_config_run s1 (Nodes.id node) name cls)
    as (r & s2 & Hget & Href2 & Hheap2 & _ & Hnm2); [by rewrite Hmodels1|].
  assert (Hd : current_or_default cls (stored_config s1 (Nodes.id node) name)
               = d).
  { rewrite Hstored1. destruct d as [|kv d'] eqn:Hdnil; [|done]. simpl.
    apply merged_nil in Hdnil.
    by destruct (stored_config s (Nodes.id node) name) as [[|kv d']|]. }
  rewrite Hd in Hheap2.
  exists s2. split; [|split].
  - unfold Models.set_model.
    unfold bind at 1. unfold gets at 1. simpl.
    unfold bind at 1. unfold Models.on_manager at 1. simpl.
    fold name. rewrite Hset.
    unfold bind at 1. unfold Models.on_manager at 1. simpl. rewrite Hget.
    unfold bind at 1. unfold gets at 1. simpl. rewrite Hheap2. simpl.
    unfold Models.on_node. simpl.
    generalize (setmodel_returns node model_class d).
    destruct (Nodes.setmodel model_class d node) as [result node'].
    simpl. by intros ->.
  - unfold stored_config. rewrite Href2. simpl. by rewrite Hheap2.
  - by rewrite Hnm2, Hnm1, lookup_insert_eq.
Qed.

(** X11: [set_model] for a model class whose name is not registered raises
    the invalid-model error and changes neither the manager nor the node. *)
Theorem set_model_unregistered s node model_class config :
  Config.models s !! ConfigurableOptions.name model_class = None →
  Models.set_model model_class config (s, node)
  = (inl (ValueError
            (ConfigurableOptions.name model_class +:+ " is an invalid model")
            []),
     (s, node)).
Proof.
  intros Hnone. unfold Models.set_model.
  unfold bind at 1. unfold gets at 1. simpl.
  unfold bind at 1. unfold Models.on_manager at 1. simpl.
  unfold Config.set_model_config, bind, gets, raise. by rewrite Hnone.
Qed.

Lemma set_model_unregistered_witness :
  Config.models example_manager !! ConfigurableOptions.name waypoint = None
  ∧ Models.set_model waypoint None (example_manager, example_net)
    = (inl (ValueError "waypoint is an invalid model" []),
       (example_manager, example_net)).
Proof.
  split; [by vm_compute|].
  apply (set_model_unregistered example_manager example_net waypoint None).
  by vm_compute.
Defined.

(** X12: [set_model] for a registered radio-medium or mobility class returns
    normally; the configuration then stored for the node and the model is the
    current one (the default values of the class registered under the name,
    when nothing was stored) with the overrides assigned; the model is
    recorded for the node; and the node holds a new instance of the class
    passed, as its radio model or its mobility model according to the role,
    that has received exactly that configuration. *)
Theorem set_model_attaches s node model_class config cls :
  Config.models s !! ConfigurableOptions.name model_class = Some cls →
  ConfigurableOptions.config_type model_class = WIRELESS
  ∨ ConfigurableOptions.config_type model_class = MOBILITY →
  let name := ConfigurableOptions.name model_class in
  let d := merged (default [] config)
             (current_or_default cls (stored_config s (Nodes.id node) name)) in
  let instance := Nodes.call (Nodes.update_config d)
                    (Nodes.new_model model_class (Nodes.id node)) in
  ∃ s' node',
    Models.set_model model_class config (s, node) = (inr tt, (s', node'))
    ∧ stored_config s' (Nodes.id node) name = Some d
    ∧ Config.node_models s' !! Nodes.id node = Some name
    ∧ (ConfigurableOptions.config_type model_class = WIRELESS →
       node' = Nodes.with_model (λ _, Some instance) node)
    ∧ (ConfigurableOptions.config_type model_class = MOBILITY →
       node' = Nodes.with_mobility (λ _, Some instance) node).
Proof.
  intros Hcls Hrole name d instance.
  destruct (set_model_run s node model_class config cls Hcls)
    as (s' & Hrun & Hstored & Hnm).
  eexists s', _. split; [exact Hrun|]. split; [done|]. split; [done|].
  split.
  - intros Hw. by rewrite setmodel_wireless.
  - intros Hm. by rewrite setmodel_mobility.
Qed.

Lemma set_model_attaches_witness :
  Config.models example_registry !! ConfigurableOptions.name basic_range
  = Some basic_range
  ∧ (ConfigurableOptions.config_type basic_range = WIRELESS
     ∨ ConfigurableOptions.config_type basic_range = MOBILITY)
  ∧ ∃ s' node',
      Models.set_model basic_range (Some [("range", "400")])
        (example_registry, example_net) = (inr tt, (s', node'))
      ∧ stored_config s' 7 "basic-range" = Some [("range", "400")]
      ∧ Config.node_models s' !! 7%Z = Some "basic-range"
      ∧ Nodes.model node'
        = Some (Nodes.mkWirelessModel basic_range 7
                  [Nodes.update_config [("range", "400")]]).
Proof.
  split; [by vm_compute|]. split; [by left|].
  destruct (set_model_attaches example_registry example_net basic_range
              (Some [("range", "400")]) basic_range)
    as (s' & node' & Hrun & Hstored & Hnm & Hradio & _);
    [by vm_compute | by left |].
  exists s', node'. split; [exact Hrun|]. split; [exact Hstored|].
  split; [exact Hnm|]. by rewrite Hradio.
Defined.

(** X13: [set_model] for a registered class whose role is neither radio
    medium nor mobility still returns normally, stores the configuration and
    records the model for the node, but attaches nothing: the node is
    unchanged. *)
Theorem set_model_other_role s node model_class config cls :
  Config.models s !! ConfigurableOptions.name model_class = Some cls →
  ConfigurableOptions.config_type model_class ≠ WIRELESS →
  ConfigurableOptions.config_type model_class ≠ MOBILITY →
  let name := ConfigurableOptions.name model_class in
  ∃ s',
    Models.set_model model_class config (s, node) = (inr tt, (s', node))
    ∧ stored_config s' (Nodes.id node) name
      = Some (merged (default [] config)
                (current_or_default cls
                   (stored_config s (Nodes.id node) name)))
    ∧ Config.node_models s' !! Nodes.id node = Some name.
Proof.
  intros Hcls Hw Hm name.
  destruct (set_model_run s node model_class config cls Hcls)
    as (s' & Hrun & Hstored & Hnm).
  exists s'. split; [|done]. rewrite Hrun. do 3 f_equal.
  unfold Nodes.setmodel.
  by rewrite decide_False, decide_False.
Qed.

Lemma set_model_other_role_witness :
  Config.models example_registry !! ConfigurableOptions.name utility_model
  = Some utility_model
  ∧ ConfigurableOptions.config_type utility_model ≠ WIRELESS
  ∧ ConfigurableOptions.config_type utility_model ≠ MOBILITY
  ∧ ∃ s',
      Models.set_model utility_model (Some [("rate", "9")])
        (example_registry, example_net) = (inr tt, (s', example_net))
      ∧ stored_config s' 7 "utility" = Some [("rate", "9")]
      ∧ Config.node_models s' !! 7%Z = Some "utility".
Proof.
  split; [by vm_compute|]. split; [done|]. split; [done|].
  apply (set_model_other_role example_registry example_net utility_model
           (Some [("rate", "9")]) utility_model); [by vm_compute|done|done].
Defined.

(** * Further properties of [EmaneNet] *)

(** ** Interfaces and NEM ids *)

(** X14: [setnemid] records the id of an interface, replacing a previous one:
    [getnemid] then returns it for that interface and what it returned before
    for every other interface; the rest of the node is unchanged. *)
Theorem setnemid_then_getnemid self netif nemid :
  ∃ self',
    Nodes.setnemid netif nemid self = (inr tt, self')
    ∧ Nodes.getnemid self' netif = Some nemid
    ∧ (∀ other, Nodes.handle other ≠ Nodes.handle netif →
         Nodes.getnemid self' other = Nodes.getnemid self other)
    ∧ Nodes.session self' = Nodes.session self
    ∧ Nodes.id self' = Nodes.id self
    ∧ Nodes.model self' = Nodes.model self
    ∧ Nodes.mobility self' = Nodes.mobility self.
Proof.
  eexists. split; [reflexivity|]. unfold Nodes.getnemid. simpl.
  split; [by rewrite get_setitem, decide_True|].
  split; [|done].
  intros other Hne. by rewrite get_setitem, decide_False.
Qed.

Lemma setnemid_then_getnemid_witness :
  ∃ self',
    Nodes.setnemid netif_B 11 example_net = (inr tt, self')
    ∧ Nodes.getnemid self' netif_B = Some 11%Z
    ∧ Nodes.getnemid self' netif_A = Some 10%Z.
Proof.
  destruct (setnemid_then_getnemid example_net netif_B 11)
    as (self' & Hrun & Hget & Hothers & _).
  exists self'. split; [exact Hrun|]. split; [exact Hget|].
  by rewrite (Hothers netif_A).
Defined.

Lemma first_with_nemid_Some nemidmap netifs nemid netif :
  Nodes.first_with_nemid nemidmap netifs nemid = Some netif ↔
  ∃ before after,
    netifs = before ++ netif :: after
    ∧ OrderedDict.get netif nemidmap = Some nemid
    ∧ ∀ earlier, earlier ∈ before →
        OrderedDict.get earlier nemidmap ≠ Some nemid.
Proof.
  induction netifs as [|first netifs IH]; simpl.
  - split; [done|]. intros (before & after & Heq & _). by destruct before.
  - case_decide as Hfirst.
    + split.
      * intros [= <-]. exists [], netifs. split; [done|]. split; [done|].
        by intros earlier ?%elem_of_nil.
      * intros (before & after & Heq & Hget & Hbefore).
        destruct before as [|b before]; simpl in Heq.
        -- by injection Heq as <- _.
        -- injection Heq as <- _. destruct (Hbefore first); [by left|done].
    + rewrite IH. split.
      * intros (before & after & -> & Hget & Hbefore).
        exists (first :: before), after. split; [done|]. split; [done|].
        intros earlier [->|Hin]%elem_of_cons; [done|by apply Hbefore].
      * intros (before & after & Heq & Hget & Hbefore).
        destruct before as [|b before]; simpl in Heq.
        -- injection Heq as <- _. done.
        -- injection Heq as <- ->. exists before, after.
           split; [done|]. split; [done|].
           intros earlier Hin. apply Hbefore. by right.
Qed.

Lemma first_with_nemid_None nemidmap netifs nemid :
  Nodes.first_with_nemid nemidmap netifs nemid = None ↔
  ∀ netif, netif ∈ netifs → OrderedDict.get netif nemidmap ≠ Some nemid.
Proof.
  induction netifs as [|first netifs IH]; simpl.
  - split; [by intros _ netif ?%elem_of_nil | done].
  - case_decide as Hfirst.
    + split; [done|]. intros Hall. destruct (Hall first); [by left|done].
    + rewrite IH. split.
      * intros Hall netif [->|Hin]%elem_of_cons; [done|by apply Hall].
      * intros Hall netif Hin. apply Hall. by right.
Qed.

(** X15: [getnemnetif] returns an interface that has the id, and the first
    such interface in the order in which the interfaces were first given an
    id; it returns nothing exactly when no interface has the id. *)
Theorem getnemnetif_first_match self nemid :
  (∀ netif,
     Nodes.getnemnetif self nemid = Some netif ↔
     ∃ before after,
       OrderedDict.keys (Nodes.nemidmap self) = before ++ netif :: after
       ∧ OrderedDict.get netif (Nodes.nemidmap self) = Some nemid
       ∧ ∀ earlier, earlier ∈ before →
           OrderedDict.get earlier (Nodes.nemidmap self) ≠ Some nemid)
  ∧ (Nodes.getnemnetif self nemid = None ↔
     ∀ netif, OrderedDict.get netif (Nodes.nemidmap self) ≠ Some nemid).
Proof.
  split.
  - intros netif. apply first_with_nemid_Some.
  - unfold Nodes.getnemnetif. rewrite first_with_nemid_None. split.
    + intros Hall netif Hget. apply (Hall netif); [|done].
      apply get_is_Some. by rewrite Hget.
    + intros Hall netif _. apply Hall.
Qed.

(** X16: when no other interface holds the id, [getnemnetif] is the inverse
    of [getnemid]: right after [setnemid] gives an interface such an id,
    [getnemnetif] returns that interface for it. *)
Theorem setnemid_then_getnemnetif self netif nemid :
  (∀ other, other ≠ Nodes.handle netif →
     OrderedDict.get other (Nodes.nemidmap self) ≠ Some nemid) →
  ∃ self',
    Nodes.setnemid netif nemid self = (inr tt, self')
    ∧ Nodes.getnemnetif self' nemid = Some (Nodes.handle netif).
Proof.
  intros Hunique. eexists. split; [reflexivity|].
  destruct (Nodes.getnemnetif _ nemid) as [found|] eqn:Hfound.
  - apply first_with_nemid_Some in Hfound
      as (before & after & _ & Hget & _).
    simpl in Hget. rewrite get_setitem in Hget.
    case_decide as Hsame; [by subst|]. by destruct (Hunique found).
  - apply first_with_nemid_None with (netif := Nodes.handle netif) in Hfound.
    + simpl in Hfound. by rewrite get_setitem, decide_True in Hfound.
    + simpl. apply keys_setitem_elem. by left.
Qed.

Lemma setnemid_then_getnemnetif_witness :
  (∀ other, other ≠ Nodes.handle netif_B →
     OrderedDict.get other (Nodes.nemidmap example_net) ≠ Some 11%Z)
  ∧ ∃ self',
      Nodes.setnemid netif_B 11 example_net = (inr tt, self')
      ∧ Nodes.getnemnetif self' 11 = Some (Nodes.handle netif_B).
Proof.
  assert (Hunique : ∀ other, other ≠ Nodes.handle netif_B →
            OrderedDict.get other (Nodes.nemidmap example_net) ≠ Some 11%Z).
  { intros other _. simpl. by case_decide. }
  split; [exact Hunique|].
  apply (setnemid_then_getnemnetif example_net netif_B 11 Hunique).
Defined.

(** Two interfaces with the same id: the one that was given an id first is
    returned, whichever was given this id last. *)
Example getnemnetif_shared_id :
  Nodes.getnemnetif (Nodes.setnemid netif_B 10 example_net).2 10
  = Some (Nodes.handle netif_A)
  ∧ Nodes.getnemnetif
      (Nodes.setnemid netif_A 11 (Nodes.setnemid netif_B 11 example_net).2).2
      11
    = Some (Nodes.handle netif_A).
Proof. split; reflexivity. Qed.

(** ** Attaching and updating models, in sequence *)

(** X17: attaching a second radio-medium model replaces the first: the node
    is the one a single attach of the second model gives, so nothing of the
    first instance remains, and the mobility model is untouched. *)
Theorem setmodel_second_replaces_first self model1 config1 model2 config2 :
  ConfigurableOptions.config_type model1 = WIRELESS →
  ConfigurableOptions.config_type model2 = WIRELESS →
  ∃ self1 self2,
    Nodes.setmodel model1 config1 self = (inr tt, self1)
    ∧ Nodes.setmodel model2 config2 self1 = (inr tt, self2)
    ∧ Nodes.setmodel model2 config2 self = (inr tt, self2)
    ∧ Nodes.model self2
      = Some (Nodes.mkWirelessModel model2 (Nodes.id self)
                [Nodes.update_config config2])
    ∧ Nodes.mobility self2 = Nodes.mobility self.
Proof.
  intros H1 H2. eexists _, _.
  split; [by apply setmodel_wireless|].
  split; [by apply setmodel_wireless|].
  split; [by rewrite setmodel_wireless|]. done.
Qed.

Lemma setmodel_second_replaces_first_witness :
  ConfigurableOptions.config_type basic_range = WIRELESS
  ∧ ∃ self1 self2,
      Nodes.setmodel basic_range [("range", "275")] example_net
      = (inr tt, self1)
      ∧ Nodes.setmodel basic_range [("range", "400")] self1 = (inr tt, self2)
      ∧ Nodes.setmodel basic_range [("range", "400")] example_net
        = (inr tt, self2)
      ∧ Nodes.model self2
        = Some (Nodes.mkWirelessModel basic_range (Nodes.id example_net)
                  [Nodes.update_config [("range", "400")]])
      ∧ Nodes.mobility self2 = Nodes.mobility example_net.
Proof.
  split; [done|].
  by apply (setmodel_second_replaces_first example_net basic_range
              [("range", "275")] basic_range [("range", "400")]).
Defined.

(** X18: the radio model and the mobility model of a node are independent:
    attaching one of each gives the same node in either order, holding
    both. *)
Theorem setmodel_roles_independent self radio config_r mobility config_m :
  ConfigurableOptions.config_type radio = WIRELESS →
  ConfigurableOptions.config_type mobility = MOBILITY →
  ∃ self',
    (Nodes.setmodel radio config_r >>> Nodes.setmodel mobility config_m) self
    = (inr tt, self')
    ∧ (Nodes.setmodel mobility config_m >>> Nodes.setmodel radio config_r) self
      = (inr tt, self')
    ∧ Nodes.model self'
      = Some (Nodes.mkWirelessModel radio (Nodes.id self)
                [Nodes.update_config config_r])
    ∧ Nodes.mobility self'
      = Some (Nodes.mkWirelessModel mobility (Nodes.id self)
                [Nodes.update_config config_m]).
Proof.
  intros Hr Hm. eexists. unfold bind.
  rewrite (setmodel_wireless self radio) by done.
  rewrite (setmodel_mobility self mobility) by done.
  split; [by apply setmodel_mobility|].
  split; [by rewrite setmodel_wireless|]. done.
Qed.

Lemma setmodel_roles_independent_witness :
  ConfigurableOptions.config_type basic_range = WIRELESS
  ∧ ConfigurableOptions.config_type waypoint = MOBILITY
  ∧ ∃ self',
      (Nodes.setmodel basic_range [("range", "400")] >>>
       Nodes.setmodel waypoint [("speed", "2.0")]) example_net
      = (inr tt, self')
      ∧ (Nodes.setmodel waypoint [("speed", "2.0")] >>>
         Nodes.setmodel basic_range [("range", "400")]) example_net
        = (inr tt, self')
      ∧ Nodes.model self'
        = Some (Nodes.mkWirelessModel basic_range (Nodes.id example_net)
                  [Nodes.update_config [("range", "400")]])
      ∧ Nodes.mobility self'
        = Some (Nodes.mkWirelessModel waypoint (Nodes.id example_net)
                  [Nodes.update_config [("speed", "2.0")]]).
Proof.
  split; [done|]. split; [done|].
  by apply (setmodel_roles_independent example_net basic_range
              [("range", "400")] waypoint [("speed", "2.0")]).
Defined.

Lemma updatemodel_all attached configs :
  ∀ self,
    Nodes.model self = Some attached →
    for_each configs Nodes.updatemodel self
    = (inr tt,
       Nodes.with_model
         (λ _, Some (Nodes.mkWirelessModel (Nodes.cls attached)
                       (Nodes._id attached)
                       (Nodes.calls attached
                        ++ ((λ config, Nodes.set_configs config (Nodes.id self))
                              <$> configs))))
         self).
Proof.
  revert attached. induction configs as [|config configs IH];
    intros attached self Hmodel.
  - simpl. unfold ret. f_equal. destruct self as [ss i nm m mb].
    simpl in *. subst m. unfold Nodes.with_model. simpl.
    rewrite app_nil_r. by destruct attached.
  - simpl. unfold bind at 1.
    assert (Hstep : Nodes.updatemodel config self
              = (inr tt,
                 Nodes.with_model
                   (λ _, Some (Nodes.call
                                 (Nodes.set_configs config (Nodes.id self))
                                 attached)) self)).
    { unfold Nodes.updatemodel, bind, gets, modify. rewrite Hmodel.
      unfold Nodes.with_model. by rewrite Hmodel. }
    rewrite Hstep.
    rewrite (IH (Nodes.call (Nodes.set_configs config (Nodes.id self))
                   attached)) by done.
    f_equal. unfold Nodes.with_model. simpl. by rewrite <- app_assoc.
Qed.

(** X19: once a radio model is attached, any number of [updatemodel] calls
    return normally and reach that same model instance, in call order, each
    with the id of the node; nothing else of the node changes. *)
Theorem updatemodel_in_sequence self model config configs :
  ConfigurableOptions.config_type model = WIRELESS →
  ∃ self',
    (Nodes.setmodel model config >>> for_each configs Nodes.updatemodel) self
    = (inr tt, self')
    ∧ Nodes.model self'
      = Some (Nodes.mkWirelessModel model (Nodes.id self)
                (Nodes.update_config config
                 :: ((λ config, Nodes.set_configs config (Nodes.id self))
                       <$> configs)))
    ∧ Nodes.mobility self' = Nodes.mobility self
    ∧ Nodes.nemidmap self' = Nodes.nemidmap self
    ∧ Nodes.session self' = Nodes.session self
    ∧ Nodes.id self' = Nodes.id self.
Proof.
  intros Hw. eexists. unfold bind at 1.
  rewrite setmodel_wireless by done.
  split; [by apply updatemodel_all|]. done.
Qed.

Lemma updatemodel_in_sequence_witness :
  ConfigurableOptions.config_type basic_range = WIRELESS
  ∧ ∃ self',
      (Nodes.setmodel basic_range [("range", "275")] >>>
       for_each [[("range", "300")]; [("range", "400")]] Nodes.updatemodel)
        example_net
      = (inr tt, self')
      ∧ Nodes.model self'
        = Some (Nodes.mkWirelessModel basic_range 7
                  [Nodes.update_config [("range", "275")];
                   Nodes.set_configs [("range", "300")] 7;
                   Nodes.set_configs [("range", "400")] 7]).
Proof.
  split; [done|].
  destruct (updatemodel_in_sequence example_net basic_range
              [("range", "275")] [[("range", "300")]; [("range", "400")]])
    as (self' & Hrun & Hmodel & _); [done|].
  exists self'. split; [exact Hrun | exact Hmodel].
Defined.

(** ** Publishing positions *)

Lemma nem_position_resolved self netif nemid :
  Nodes.getnemid self netif = Some nemid →
  let node := Nodes.node netif in
  let geo :=
    Nodes.getgeo (Nodes.session self) (Nodes.x (Nodes.position node))
      (Nodes.y (Nodes.position node)) (Nodes.z (Nodes.position node)) in
  Nodes._nem_position self netif
  = Some (nemid, geo.1.2, geo.1.1,
          Nodes.py_round (resolved_altitude self netif)).
Proof.
  intros Hid. unfold Nodes._nem_position, resolved_altitude,
    Nodes.getposition. rewrite Hid. simpl.
  by destruct (Nodes.getgeo _ _ _ _) as [[lat lon] a].
Qed.

(** X20: with the sink available, a single publish for an interface that has
    a NEM id makes exactly one publish call, on channel 0, of an event with
    one entry: the id, the latitude and the longitude as the geo converter
    gives them (first and second component), and the rounded resolved
    altitude.  For an interface with no id it publishes nothing and changes
    nothing. *)
Theorem setnemposition_one_entry self netif received :
  Nodes.service (Nodes.session self) = Some received →
  let node := Nodes.node netif in
  let geo :=
    Nodes.getgeo (Nodes.session self) (Nodes.x (Nodes.position node))
      (Nodes.y (Nodes.position node)) (Nodes.z (Nodes.position node)) in
  (∀ nemid,
     Nodes.getnemid self netif = Some nemid →
     Nodes.setnemposition netif self
     = (inr tt,
        Nodes.with_service
          (λ _, Some (received
                      ++ [(0%Z,
                           [Nodes.mkLocationEntry nemid geo.1.1 geo.1.2
                              (Nodes.py_round
                                 (resolved_altitude self netif))])]))
          self))
  ∧ (Nodes.getnemid self netif = None →
     Nodes.setnemposition netif self = (inr tt, self)).
Proof.
  intros Hsvc node geo. split.
  - intros nemid Hid. rewrite (setnemposition_available _ _ received Hsvc).
    by rewrite (nem_position_resolved self netif nemid Hid).
  - intros Hid. rewrite (setnemposition_available _ _ received Hsvc).
    apply nem_position_None in Hid. by rewrite Hid.
Qed.

Lemma setnemposition_one_entry_witness :
  Nodes.service (Nodes.session example_net) = Some []
  ∧ Nodes.setnemposition netif_A example_net
    = (inr tt,
       Nodes.with_service
         (λ _, Some [(0%Z, [Nodes.mkLocationEntry 10 2 1 3])]) example_net)
  ∧ Nodes.setnemposition netif_B example_net = (inr tt, example_net).
Proof.
  split; [reflexivity|].
  destruct (setnemposition_one_entry example_net netif_A [] eq_refl)
    as [Hresolved _].
  destruct (setnemposition_one_entry example_net netif_B [] eq_refl)
    as [_ Hunresolved].
  split; [by rewrite (Hresolved 10%Z) | by rewrite Hunresolved].
Defined.

(** X21: a batch of one interface and a single publish agree when the
    interface has a NEM id or there is no sink; with a sink and an interface
    without id they differ: the single publish is silent, the batch still
    publishes an event with no entries. *)
Theorem setnempositions_single_interface self netif :
  (is_Some (Nodes.getnemid self netif)
   ∨ Nodes.service (Nodes.session self) = None →
   Nodes.setnempositions [netif] self = Nodes.setnemposition netif self)
  ∧ (∀ received,
       Nodes.getnemid self netif = None →
       Nodes.service (Nodes.session self) = Some received →
       Nodes.setnemposition netif self = (inr tt, self)
       ∧ Nodes.setnempositions [netif] self
         = (inr tt,
            Nodes.with_service (λ _, Some (received ++ [(0%Z, [])])) self)).
Proof.
  split.
  - intros Hcase.
    destruct (Nodes.service (Nodes.session self)) as [received|] eqn:Hsvc.
    + destruct Hcase as [[nemid Hid]|]; [|done].
      rewrite (setnempositions_available _ _ _ received Hsvc).
      rewrite (setnemposition_available _ _ received Hsvc).
      unfold resolved_entries. cbn [omap list_omap].
      by rewrite (nem_position_resolved self netif nemid Hid).
    + destruct (setnempositions_unavailable self [netif]) as [-> Hsingle];
        [by right|]. by rewrite Hsingle.
  - intros received Hid Hsvc.
    rewrite (setnempositions_available _ _ _ received Hsvc).
    rewrite (setnemposition_available _ _ received Hsvc).
    unfold resolved_entries. cbn [omap list_omap].
    apply nem_position_None in Hid. by rewrite Hid.
Qed.

Lemma setnempositions_single_interface_witness :
  (is_Some (Nodes.getnemid example_net netif_A)
   ∨ Nodes.service (Nodes.session example_net) = None)
  ∧ Nodes.setnempositions [netif_A] example_net
    = Nodes.setnemposition netif_A example_net
  ∧ Nodes.getnemid example_net netif_B = None
  ∧ Nodes.setnemposition netif_B example_net = (inr tt, example_net)
  ∧ Nodes.setnempositions [netif_B] example_net
    = (inr tt, Nodes.with_service (λ _, Some [(0%Z, [])]) example_net).
Proof.
  assert (HA : is_Some (Nodes.getnemid example_net netif_A)
               ∨ Nodes.service (Nodes.session example_net) = None).
  { left. by eexists. }
  split; [exact HA|].
  destruct (setnempositions_single_interface example_net netif_A) as [Hsame _].
  destruct (setnempositions_single_interface example_net netif_B) as [_ Hdiff].
  split; [by apply Hsame|]. split; [reflexivity|].
  apply (Hdiff []); reflexivity.
Defined.

(** X22: in every event a publish call hands to the sink, every entry
    carries the latitude and the longitude that the geo converter gives for
    the position of the node of one of the interfaces of the call, latitude
    as latitude and longitude as longitude. *)
Theorem published_latitude_longitude
    self moved_netifs self' channel event entry :
  Nodes.setnempositions moved_netifs self = (inr tt, self')
  ∨ (∃ netif, moved_netifs = [netif]
       ∧ Nodes.setnemposition netif self = (inr tt, self')) →
  sink_calls self' = sink_calls self ++ [(channel, event)] →
  entry ∈ event →
  ∃ netif,
    netif ∈ moved_netifs
    ∧ Nodes.getnemid self netif = Some (Nodes.nem entry)
    ∧ let node := Nodes.node netif in
      let geo :=
        Nodes.getgeo (Nodes.session self) (Nodes.x (Nodes.position node))
          (Nodes.y (Nodes.position node)) (Nodes.z (Nodes.position node)) in
      Nodes.latitude entry = geo.1.1 ∧ Nodes.longitude entry = geo.1.2.
Proof.
  intros Hrun Hcalls Hin.
  destruct (published_event _ _ _ _ _ Hrun Hcalls) as [_ ->].
  unfold resolved_entries in Hin. apply list_elem_of_omap in Hin
    as (netif & Hmem & Hentry).
  exists netif. split; [done|].
  destruct (Nodes.getnemid self netif) as [nemid|] eqn:Hid.
  - rewrite (nem_position_resolved self netif nemid Hid) in Hentry.
    simpl in Hentry. by injection Hentry as <-.
  - apply nem_position_None in Hid. by rewrite Hid in Hentry.
Qed.

Lemma published_latitude_longitude_witness :
  Nodes.setnempositions [netif_A; netif_B] example_net
  = (inr tt,
     Nodes.with_service
       (λ _, Some [(0%Z, [Nodes.mkLocationEntry 10 2 1 3])]) example_net)
  ∧ ∃ netif,
      netif ∈ [netif_A; netif_B]
      ∧ Nodes.getnemid example_net netif = Some 10%Z
      ∧ (2 : Q) = (example_getgeo 0 0 0).1.1
      ∧ (1 : Q) = (example_getgeo 0 0 0).1.2.
Proof.
  split; [reflexivity|].
  destruct (published_latitude_longitude example_net [netif_A; netif_B]
    (Nodes.with_service
       (λ _, Some [(0%Z, [Nodes.mkLocationEntry 10 2 1 3])]) example_net)
    0%Z [Nodes.mkLocationEntry 10 2 1 3] (Nodes.mkLocationEntry 10 2 1 3))
    as (netif & Hmem & Hid & Hlat & Hlon).
  - left. reflexivity.
  - reflexivity.
  - apply list_elem_of_here.
  - exists netif. split; [exact Hmem|]. split; [exact Hid|].
    split; [exact Hlat | exact Hlon].
Defined.

(** X23: neither publish method ever raises, whatever the list and the state
    of the node; each leaves the id, the NEM id map, the models and the geo
    converter of the node as they were, keeps the sink present or absent as
    it was, and hands the sink at most one event, after those it already
    has. *)
Theorem publish_only_appends self moved_netifs netif :
  ∀ run,
    run = Nodes.setnempositions moved_netifs
    ∨ run = Nodes.setnemposition netif →
    ∃ self',
      run self = (inr tt, self')
      ∧ Nodes.id self' = Nodes.id self
      ∧ Nodes.nemidmap self' = Nodes.nemidmap self
      ∧ Nodes.model self' = Nodes.model self
      ∧ Nodes.mobility self' = Nodes.mobility self
      ∧ Nodes.getgeo (Nodes.session self') = Nodes.getgeo (Nodes.session self)
      ∧ (Nodes.service (Nodes.session self') = None
         ↔ Nodes.service (Nodes.session self) = None)
      ∧ (sink_calls self' = sink_calls self
         ∨ ∃ event, sink_calls self' = sink_calls self ++ [(0%Z, event)]).
Proof.
  intros run Hrun.
  assert (Hsame : ∃ self',
    (inr tt, self) = (inr tt : exn + unit, self')
    ∧ Nodes.id self' = Nodes.id self
    ∧ Nodes.nemidmap self' = Nodes.nemidmap self
    ∧ Nodes.model self' = Nodes.model self
    ∧ Nodes.mobility self' = Nodes.mobility self
    ∧ Nodes.getgeo (Nodes.session self') = Nodes.getgeo (Nodes.session self)
    ∧ (Nodes.service (Nodes.session self') = None
       ↔ Nodes.service (Nodes.session self) = None)
    ∧ (sink_calls self' = sink_calls self
       ∨ ∃ event, sink_calls self' = sink_calls self ++ [(0%Z, event)])).
  { exists self. repeat split; try done. by left. }
  assert (Hadded : ∀ received event,
    Nodes.service (Nodes.session self) = Some received →
    ∃ self',
      (inr tt,
       Nodes.with_service (λ _, Some (received ++ [(0%Z, event)])) self)
      = (inr tt : exn + unit, self')
      ∧ Nodes.id self' = Nodes.id self
      ∧ Nodes.nemidmap self' = Nodes.nemidmap self
      ∧ Nodes.model self' = Nodes.model self
      ∧ Nodes.mobility self' = Nodes.mobility self
      ∧ Nodes.getgeo (Nodes.session self') = Nodes.getgeo (Nodes.session self)
      ∧ (Nodes.service (Nodes.session self') = None
         ↔ Nodes.service (Nodes.session self) = None)
      ∧ (sink_calls self' = sink_calls self
         ∨ ∃ event, sink_calls self' = sink_calls self ++ [(0%Z, event)])).
  { intros received event Hsvc. eexists. split; [reflexivity|].
    repeat split; try done.
    - simpl. by rewrite Hsvc.
    - right. exists event. unfold sink_calls. simpl. by rewrite Hsvc. }
  destruct (Nodes.service (Nodes.session self)) as [received|] eqn:Hsvc.
  - destruct Hrun as [-> | ->].
    + destruct moved_netifs as [|first rest].
      * destruct (setnempositions_unavailable self []) as [-> _]; [by left|].
        exact Hsame.
      * rewrite (setnempositions_available _ _ _ received Hsvc).
        by apply Hadded.
    + rewrite (setnemposition_available _ _ received Hsvc).
      destruct (Nodes._nem_position self netif); [by apply Hadded|].
      exact Hsame.
  - destruct (setnempositions_unavailable self moved_netifs)
      as [Hbatch Hsingle]; [by right|].
    destruct Hrun as [-> | ->]; [by rewrite Hbatch|].
    by rewrite Hsingle.
Qed.

Lemma publish_only_appends_witness :
  ∃ self',
    Nodes.setnempositions [netif_B; netif_A] example_net_both
    = (inr tt, self')
    ∧ Nodes.nemidmap self' = Nodes.nemidmap example_net_both
    ∧ (sink_calls self' = sink_calls example_net_both
       ∨ ∃ event,
           sink_calls self' = sink_calls example_net_both ++ [(0%Z, event)]).
Proof.
  destruct (publish_only_appends example_net_both [netif_B; netif_A] netif_A
              (Nodes.setnempositions [netif_B; netif_A]))
    as (self' & Hrun & _ & Hmap & _ & _ & _ & _ & Hcalls); [by left|].
  exists self'. split; [exact Hrun|]. split; [exact Hmap | exact Hcalls].
Defined.

(** ** Rounding *)

Lemma py_round_comp v w : (v == w)%Q → Nodes.py_round v = Nodes.py_round w.
Proof.
  intros Heq. unfold Nodes.py_round.
  rewrite (Qfloor_comp v w Heq).
  assert (Hcmp : (v - inject_Z (Qfloor w) ?= 1 # 2)%Q
                 = (w - inject_Z (Qfloor w) ?= 1 # 2)%Q).
  { apply Qcompare_comp; [|reflexivity]. by rewrite Heq. }
  by rewrite Hcmp.
Qed.

Lemma Qfloor_unique v n :
  (inject_Z n <= v)%Q → (v < inject_Z n + 1)%Q → Qfloor v = n.
Proof.
  intros Hlo Hhi. destruct (Qfloor_bounds v) as [Hlo' Hhi'].
  assert (H1 : (Qfloor v < n + 1)%Z).
  { rewrite Zlt_Qlt, inject_Z_plus. change (inject_Z 1) with 1%Q. lra. }
  assert (H2 : (n < Qfloor v + 1)%Z).
  { rewrite Zlt_Qlt, inject_Z_plus. change (inject_Z 1) with 1%Q. lra. }
  lia.
Qed.

(** X24: the rounding applied to the altitude keeps the order of altitudes,
    leaves an altitude that is already an integer as it is, sends an altitude
    exactly halfway between two integers to the even one, and lands within
    one half of the altitude. *)
Theorem py_round_properties :
  (∀ v w, (v <= w)%Q → (Nodes.py_round v <= Nodes.py_round w)%Z)
  ∧ (∀ n, Nodes.py_round (inject_Z n) = n)
  ∧ (∀ n, Nodes.py_round (inject_Z n + (1 # 2))
          = if Z.even n then n else (n + 1)%Z)
  ∧ (∀ v, (Qabs (inject_Z (Nodes.py_round v) - v) <= 1 # 2)%Q).
Proof.
  split; [|split; [apply py_round_integer|split; [|apply py_round_within_half]]].
  - intros v w Hle.
    destruct (Z.le_gt_cases (Nodes.py_round v) (Nodes.py_round w))
      as [|Hgt]; [done|].
    exfalso.
    assert (Hgap : (inject_Z (Nodes.py_round w) + 1
                    <= inject_Z (Nodes.py_round v))%Q).
    { assert (H' : (Nodes.py_round w + 1 <= Nodes.py_round v)%Z) by lia.
      rewrite Zle_Qle, inject_Z_plus in H'. exact H'. }
    assert (Hv := py_round_within_half v).
    assert (Hw := py_round_within_half w).
    assert (Heq : (v == w)%Q).
    { revert Hv Hw. apply Qabs_case; intros; revert Hw; apply Qabs_case;
        intros; lra. }
    apply py_round_comp in Heq. lia.
  - intros n. unfold Nodes.py_round.
    assert (Hfloor : Qfloor (inject_Z n + (1 # 2)) = n).
    { apply Qfloor_unique; lra. }
    rewrite Hfloor.
    assert (Hcmp : (inject_Z n + (1 # 2) - inject_Z n ?= 1 # 2)%Q = Eq).
    { apply Qeq_alt. lra. }
    by rewrite Hcmp.
Qed.

Lemma py_round_properties_witness :
  ((25 # 10) <= (35 # 10))%Q
  ∧ (Nodes.py_round (25 # 10) <= Nodes.py_round (35 # 10))%Z
  ∧ Nodes.py_round (inject_Z 3 + (1 # 2)) = 4%Z.
Proof.
  split; [done|].
  destruct py_round_properties as (Hmono & _ & Hties & _).
  split; [by apply Hmono | apply (Hties 3%Z)].
Defined.

(** * Properties of [ConfigFrame] *)

Section config_frame_facts.
Context {T : Type} `{EqDecision T} (BOOL : T).
Implicit Types (self : Widgets.ConfigFrame T) (option : Widgets.ConfigOption T).

Lemma setitem_id {K V} `{EqDecision K} (k : K) (v : V) d :
  OrderedDict.get k d = Some v → OrderedDict.setitem k v d = d.
Proof.
  induction d as [|[k0 v0] d IH]; simpl; [done|].
  case_decide as Hk; [by intros [= ->]; subst|].
  intros Hget. by rewrite IH.
Qed.

Lemma parsed_set_value v option content :
  parsed BOOL (Widgets.set_value v option) content
  = parsed BOOL option content.
Proof. done. Qed.

(** One round of the loop of [parse_config]. *)
Lemma parse_key_run self key option content :
  OrderedDict.get key (Widgets.config self) = Some option →
  OrderedDict.get key (Widgets.values self) = Some content →
  Widgets.parse_key BOOL key self
  = (inr tt,
     Widgets.with_config
       (OrderedDict.setitem key
          (Widgets.set_value (parsed BOOL option content) option)) self).
Proof.
  intros Hoption Hcontent.
  unfold Widgets.parse_key, bind, gets, Widgets.getitem, modify, ret, parsed.
  rewrite Hoption, Hcontent. by repeat case_decide.
Qed.

Lemma parse_config_loop keys :
  ∀ self,
    (∀ key, key ∈ keys →
       is_Some (OrderedDict.get key (Widgets.config self))
       ∧ is_Some (OrderedDict.get key (Widgets.values self))) →
    ∃ config',
      for_each keys (Widgets.parse_key BOOL) self
      = (inr tt, Widgets.mkConfigFrame config' (Widgets.values self))
      ∧ (∀ key,
           OrderedDict.get key config'
           = (λ option,
                if decide (key ∈ keys) then
                  Widgets.set_value
                    (parsed BOOL option
                       (default "" (OrderedDict.get key (Widgets.values self))))
                    option
                else option)
             <$> OrderedDict.get key (Widgets.config self))
      ∧ ((∀ key option content,
            key ∈ keys →
            OrderedDict.get key (Widgets.config self) = Some option →
            OrderedDict.get key (Widgets.values self) = Some content →
            Widgets.set_value (parsed BOOL option content) option = option) →
         config' = Widgets.config self).
Proof.
  induction keys as [|k keys IH]; intros self Hkeys.
  - exists (Widgets.config self). split; [by destruct self|]. split; [|done].
    intros key.
    by destruct (OrderedDict.get key (Widgets.config self)).
  - destruct (Hkeys k) as [[option Hoption] [content Hcontent]]; [by left|].
    set (self1 := Widgets.with_config
           (OrderedDict.setitem k
              (Widgets.set_value (parsed BOOL option content) option)) self).
    destruct (IH self1) as (config' & Hrun & Hget & Hfixed).
    { intros key Hin. destruct (Hkeys key) as [Hc Hv]; [by right|].
      split; [|done]. simpl. rewrite get_setitem. by case_decide. }
    exists config'. split; [|split].
    + cbn [for_each]. unfold bind at 1.
      rewrite (parse_key_run self k option content Hoption Hcontent).
      exact Hrun.
    + intros key. rewrite Hget. simpl. rewrite get_setitem.
      destruct (decide (k = key)) as [->|Hne].
      * rewrite Hoption, Hcontent. simpl.
        rewrite (decide_True (P := key ∈ key :: keys)) by by left.
        by case_decide.
      * destruct (OrderedDict.get key (Widgets.config self)); [|done].
        simpl. f_equal.
        destruct (decide (key ∈ keys)) as [Hin|Hnotin].
        -- by rewrite decide_True by by right.
        -- rewrite decide_False; [done|].
           intros [?|?]%elem_of_cons; [congruence|done].
    + intros Hstable.
      assert (Hself1 : self1 = self).
      { unfold self1. rewrite (Hstable k option content) by (done || by left).
        destruct self as [c v]. unfold Widgets.with_config. simpl in *.
        by rewrite setitem_id. }
      rewrite Hfixed; [by rewrite Hself1|].
      rewrite Hself1. intros key o c Hin. apply Hstable. by right.
Qed.

Lemma last_all_equal {A} (l : list A) (a : A) :
  l ≠ [] → (∀ x, x ∈ l → x = a) → last l = Some a.
Proof.
  induction l as [|x l IH] using rev_ind; [done|].
  intros _ Hall. rewrite last_snoc. f_equal. apply Hall.
  apply elem_of_app. right. by left.
Qed.

(** The dictionary [{x: d[x].value for x in d}], key by key. *)
Lemma get_comprehension {V W} (f : V → W) (d : OrderedDict.t string V) key :
  OrderedDict.get key
    (OrderedDict.of_pairs
       (omap (λ x, (λ v, (x, f v)) <$> OrderedDict.get x d)
          (OrderedDict.keys d)))
  = f <$> OrderedDict.get key d.
Proof.
  rewrite get_of_pairs.
  destruct (OrderedDict.get key d) as [v|] eqn:Hkey; simpl.
  - rewrite (last_all_equal _ (key, f v)); [done| |].
    + assert (Hin : (key, f v) ∈
        filter (λ kv : string * W, kv.1 = key)
          (omap (λ x, (λ v, (x, f v)) <$> OrderedDict.get x d)
             (OrderedDict.keys d))).
      { apply list_elem_of_filter. split; [done|].
        apply list_elem_of_omap. exists key. split.
        - apply get_is_Some. by rewrite Hkey.
        - by rewrite Hkey. }
      intros Hnil. rewrite Hnil in Hin. by apply elem_of_nil in Hin.
    + intros [x w] [Hx Hin]%list_elem_of_filter. simpl in Hx. subst x.
      apply list_elem_of_omap in Hin as (x & _ & Hx).
      destruct (OrderedDict.get x d) as [v'|] eqn:Hx'; [|done].
      simpl in Hx. injection Hx as -> <-. congruence.
  - destruct (filter (λ kv : string * W, kv.1 = key)
        (omap (λ x, (λ v, (x, f v)) <$> OrderedDict.get x d)
           (OrderedDict.keys d))) as [|[x w] rest] eqn:Hfilter; [done|].
    exfalso.
    assert (Hin : (x, w) ∈ filter (λ kv : string * W, kv.1 = key)
        (omap (λ x, (λ v, (x, f v)) <$> OrderedDict.get x d)
           (OrderedDict.keys d))).
    { rewrite Hfilter. by left. }
    apply list_elem_of_filter in Hin as [Hx Hin]. simpl in Hx. subst x.
    apply list_elem_of_omap in Hin as (x & _ & Hx).
    destruct (OrderedDict.get x d) as [v'|] eqn:Hx'; [|done].
    simpl in Hx. injection Hx as -> <-. congruence.
Qed.
End config_frame_facts.

Section config_frame_props.
Context {T : Type} `{EqDecision T} (BOOL : T).
Implicit Types (self : Widgets.ConfigFrame T) (option : Widgets.ConfigOption T).

Lemma parse_config_run self :
  (∀ key, key ∈ OrderedDict.keys (Widgets.config self) →
     is_Some (OrderedDict.get key (Widgets.values self))) →
  ∃ config',
    Widgets.parse_config BOOL self
    = (inr (OrderedDict.of_pairs
              (omap (λ x, (λ option, (x, Widgets.value option))
                            <$> OrderedDict.get x config')
                 (OrderedDict.keys config'))),
       Widgets.mkConfigFrame config' (Widgets.values self))
    ∧ (∀ key,
         OrderedDict.get key config'
         = (λ option,
              Widgets.set_value
                (parsed BOOL option
                   (default "" (OrderedDict.get key (Widgets.values self))))
                option)
           <$> OrderedDict.get key (Widgets.config self))
    ∧ ((∀ key option content,
          OrderedDict.get key (Widgets.config self) = Some option →
          OrderedDict.get key (Widgets.values self) = Some content →
          Widgets.set_value (parsed BOOL option content) option = option) →
       config' = Widgets.config self).
Proof.
  intros Hvars.
  destruct (parse_config_loop BOOL (OrderedDict.keys (Widgets.config self))
              self) as (config' & Hrun & Hget & Hfixed).
  { intros key Hin. split; [by apply get_is_Some | by apply Hvars]. }
  exists config'. split; [|split].
  - unfold Widgets.parse_config. unfold bind at 1. unfold gets at 1.
    unfold bind at 1. by rewrite Hrun.
  - intros key. rewrite Hget.
    destruct (OrderedDict.get key (Widgets.config self)) as [option|]
      eqn:Hoption; [|done].
    simpl. rewrite decide_True; [done|].
    apply get_is_Some. by rewrite Hoption.
  - intros Hstable. apply Hfixed. intros key option content _.
    apply Hstable.
Qed.

(** X25: when every option of the frame has its variable, [parse_config]
    returns normally a dictionary that gives, for every key, the contents of
    the variable of the option, a boolean option reading 1 for the contents
    On and 0 for any other; it writes that value into the option and leaves
    the variables alone; and a second call returns the same dictionary and
    changes nothing more. *)
Theorem parse_config_reads_variables self :
  (∀ key, key ∈ OrderedDict.keys (Widgets.config self) →
     is_Some (OrderedDict.get key (Widgets.values self))) →
  ∃ result self',
    Widgets.parse_config BOOL self = (inr result, self')
    ∧ Widgets.values self' = Widgets.values self
    ∧ (∀ key option,
         OrderedDict.get key (Widgets.config self) = Some option →
         ∃ content,
           OrderedDict.get key (Widgets.values self) = Some content
           ∧ OrderedDict.get key result = Some (parsed BOOL option content)
           ∧ OrderedDict.get key (Widgets.config self')
             = Some (Widgets.set_value (parsed BOOL option content) option))
    ∧ (∀ key, OrderedDict.get key (Widgets.config self) = None →
         OrderedDict.get key result = None)
    ∧ Widgets.parse_config BOOL self' = (inr result, self').
Proof.
  intros Hvars.
  destruct (parse_config_run self Hvars) as (config' & Hrun & Hget & _).
  eexists _, _. split; [exact Hrun|]. split; [done|].
  split; [|split].
  - intros key option Hoption.
    destruct (Hvars key) as [content Hcontent].
    { apply get_is_Some. by rewrite Hoption. }
    exists content. split; [done|].
    rewrite get_comprehension. simpl.
    by rewrite Hget, Hoption, Hcontent.
  - intros key Hnone. rewrite get_comprehension. by rewrite Hget, Hnone.
  - destruct (parse_config_run (Widgets.mkConfigFrame config'
                (Widgets.values self))) as (config'' & Hrun' & _ & Hfixed).
    { simpl. intros key Hin. apply Hvars. apply get_is_Some.
      apply get_is_Some in Hin. rewrite Hget in Hin.
      by destruct (OrderedDict.get key (Widgets.config self)). }
    rewrite Hrun'. simpl. rewrite Hfixed; [done|].
    simpl. intros key option content Hoption Hcontent.
    rewrite Hget, Hcontent in Hoption.
    destruct (OrderedDict.get key (Widgets.config self)) as [o|]; [|done].
    simpl in Hoption. by injection Hoption as <-.
Qed.

Lemma for_each_app {St A} (l1 l2 : list A) (body : A → M St unit) s :
  for_each (l1 ++ l2) body s = (for_each l1 body >>> for_each l2 body) s.
Proof.
  revert s. induction l1 as [|x l1 IH]; intros s; [done|].
  cbn [for_each app]. unfold bind in *.
  destruct (body x s) as [[e|[]] s']; [done|]. apply IH.
Qed.

Lemma set_item_run self name data option content :
  OrderedDict.get name (Widgets.config self) = Some option →
  OrderedDict.get name (Widgets.values self) = Some content →
  Widgets.set_item BOOL (name, data) self
  = (inr tt,
     Widgets.with_values
       (OrderedDict.setitem name (shown BOOL option data)) self).
Proof.
  intros Hoption Hcontent.
  unfold Widgets.set_item, bind, gets, Widgets.getitem, modify, ret, shown,
    Widgets.self_config.
  by rewrite Hoption, Hcontent.
Qed.

Lemma set_values_loop config :
  ∀ self,
    (∀ name, name ∈ OrderedDict.keys config →
       is_Some (OrderedDict.get name (Widgets.config self))
       ∧ is_Some (OrderedDict.get name (Widgets.values self))) →
    ∃ values',
      Widgets.set_values BOOL config self
      = (inr tt, Widgets.mkConfigFrame (Widgets.config self) values')
      ∧ (∀ name, is_Some (OrderedDict.get name (Widgets.values self)) →
           is_Some (OrderedDict.get name values'))
      ∧ (NoDup (OrderedDict.keys config) →
         ∀ name,
           OrderedDict.get name values'
           = match OrderedDict.get name config,
                   OrderedDict.get name (Widgets.config self) with
             | Some data, Some option => Some (shown BOOL option data)
             | _, _ => OrderedDict.get name (Widgets.values self)
             end).
Proof.
  unfold Widgets.set_values.
  induction config as [|[n data] config IH]; intros self Hnames.
  - exists (Widgets.values self). split; [by destruct self|].
    split; [done|]. by intros _ name.
  - destruct (Hnames n) as [[option Hoption] [content Hcontent]]; [by left|].
    set (self1 := Widgets.with_values
           (OrderedDict.setitem n (shown BOOL option data)) self).
    destruct (IH self1) as (values' & Hrun & Hkept & Hget).
    { intros name Hin. destruct (Hnames name) as [Hc Hv]; [by right|].
      split; [done|]. simpl. rewrite get_setitem. by case_decide. }
    exists values'. split; [|split].
    + cbn [for_each]. unfold bind at 1.
      rewrite (set_item_run self n data option content Hoption Hcontent).
      exact Hrun.
    + intros name Hsome. apply Hkept. simpl. rewrite get_setitem.
      by case_decide.
    + intros Hnodup name. apply NoDup_cons in Hnodup as [Hnotin Hnodup].
      rewrite (Hget Hnodup). simpl. rewrite get_setitem.
      destruct (decide (n = name)) as [->|Hne].
      * rewrite Hoption.
        assert (Hnone : OrderedDict.get name config = None).
        { apply eq_None_not_Some. by rewrite get_is_Some. }
        by rewrite Hnone.
      * done.
Qed.

(** X26: when the names given to [set_values] are distinct and each is an
    option of the frame with a variable, the call returns normally, leaves
    the options alone and sets the variable of each name to the value given
    for it, a boolean option showing On for the value 1 and Off for any
    other; the variables of the other options keep their contents. *)
Theorem set_values_writes_variables self config :
  NoDup (OrderedDict.keys config) →
  (∀ name, name ∈ OrderedDict.keys config →
     is_Some (OrderedDict.get name (Widgets.config self))
     ∧ is_Some (OrderedDict.get name (Widgets.values self))) →
  ∃ self',
    Widgets.set_values BOOL config self = (inr tt, self')
    ∧ Widgets.config self' = Widgets.config self
    ∧ (∀ name data option,
         OrderedDict.get name config = Some data →
         OrderedDict.get name (Widgets.config self) = Some option →
         OrderedDict.get name (Widgets.values self')
         = Some (shown BOOL option data))
    ∧ (∀ name, OrderedDict.get name config = None →
         OrderedDict.get name (Widgets.values self')
         = OrderedDict.get name (Widgets.values self)).
Proof.
  intros Hnodup Hnames.
  destruct (set_values_loop config self Hnames)
    as (values' & Hrun & _ & Hget).
  eexists. split; [exact Hrun|]. split; [done|]. simpl. split.
  - intros name data option Hdata Hoption.
    by rewrite (Hget Hnodup), Hdata, Hoption.
  - intros name Hnone. by rewrite (Hget Hnodup), Hnone.
Qed.

(** X27: values set with [set_values] come back from [parse_config]: under
    the conditions of the two calls, the dictionary returned gives, for
    every name that was set, the value that was set when the option is not
    boolean, and for a boolean option 1 for the value 1 and 0 for any other
    value. *)
Theorem set_values_then_parse_config self config :
  NoDup (OrderedDict.keys config) →
  (∀ name, name ∈ OrderedDict.keys config →
     is_Some (OrderedDict.get name (Widgets.config self))) →
  (∀ key, key ∈ OrderedDict.keys (Widgets.config self) →
     is_Some (OrderedDict.get key (Widgets.values self))) →
  ∃ result self',
    (Widgets.set_values BOOL config >>> Widgets.parse_config BOOL) self
    = (inr result, self')
    ∧ ∀ name data option,
        OrderedDict.get name config = Some data →
        OrderedDict.get name (Widgets.config self) = Some option →
        OrderedDict.get name result
        = Some (if decide (Widgets.type option = BOOL)
                then if decide (data = "1") then "1" else "0"
                else data).
Proof.
  intros Hnodup Hnames Hvars.
  destruct (set_values_loop config self) as (values' & Hset & Hkept & Hget).
  { intros name Hin. split; [by apply Hnames|]. apply Hvars.
    by apply get_is_Some, Hnames. }
  destruct (parse_config_run
              (Widgets.mkConfigFrame (Widgets.config self) values'))
    as (config' & Hparse & Hget' & _).
  { simpl. intros key Hin. by apply Hkept, Hvars. }
  eexists _, _. split.
  { unfold bind. rewrite Hset. exact Hparse. }
  intros name data option Hdata Hoption.
  rewrite get_comprehension, Hget'. simpl. rewrite Hoption. simpl.
  rewrite (Hget Hnodup), Hdata, Hoption. simpl. f_equal.
  unfold parsed, shown. by repeat case_decide.
Qed.

(** X28: [set_values] with a name that is not an option of the frame raises
    [KeyError] for that name; the variables of the names before it have been
    set by then, and stay set. *)
Theorem set_values_unknown_name self before name data after :
  (∀ n, n ∈ OrderedDict.keys before →
     is_Some (OrderedDict.get n (Widgets.config self))
     ∧ is_Some (OrderedDict.get n (Widgets.values self))) →
  OrderedDict.get name (Widgets.config self) = None →
  ∃ self',
    Widgets.set_values BOOL (before ++ (name, data) :: after) self
    = (inl (KeyError name), self')
    ∧ Widgets.set_values BOOL before self = (inr tt, self').
Proof.
  intros Hbefore Hnone.
  destruct (set_values_loop before self Hbefore) as (values' & Hrun & _).
  eexists. split; [|exact Hrun].
  unfold Widgets.set_values in *. rewrite for_each_app. unfold bind at 1.
  rewrite Hrun. cbn [for_each]. unfold bind at 1.
  unfold Widgets.set_item, bind, gets, Widgets.getitem, raise,
    Widgets.self_config. simpl. by rewrite Hnone.
Qed.

Lemma parse_key_missing self key option :
  OrderedDict.get key (Widgets.config self) = Some option →
  OrderedDict.get key (Widgets.values self) = None →
  Widgets.parse_key BOOL key self = (inl (KeyError key), self).
Proof.
  intros Hoption Hnone.
  unfold Widgets.parse_key, bind, gets, Widgets.getitem, raise, ret.
  by rewrite Hoption, Hnone.
Qed.

(** X29: [parse_config] on a frame in which an option has no variable (an
    option that was never drawn) raises [KeyError] for the first such key.
    The variables are unchanged; the options before that key have been given
    their parsed values by then and the other options are unchanged. *)
Theorem parse_config_missing_variable self before key after :
  OrderedDict.keys (Widgets.config self) = before ++ key :: after →
  (∀ k, k ∈ before → is_Some (OrderedDict.get k (Widgets.values self))) →
  OrderedDict.get key (Widgets.values self) = None →
  ∃ self',
    Widgets.parse_config BOOL self = (inl (KeyError key), self')
    ∧ Widgets.values self' = Widgets.values self
    ∧ ∀ k option,
        OrderedDict.get k (Widgets.config self) = Some option →
        OrderedDict.get k (Widgets.config self')
        = Some (if decide (k ∈ before) then
                  Widgets.set_value
                    (parsed BOOL option
                       (default "" (OrderedDict.get k (Widgets.values self))))
                    option
                else option).
Proof.
  intros Hkeys Hbefore Hnone.
  assert (Hin : ∀ k, k ∈ before ++ key :: after →
            is_Some (OrderedDict.get k (Widgets.config self))).
  { intros k Hk. apply get_is_Some. by rewrite Hkeys. }
  destruct (parse_config_loop BOOL before self) as (config' & Hrun & Hget & _).
  { intros k Hk. split; [|by apply Hbefore].
    apply Hin, elem_of_app. by left. }
  exists (Widgets.mkConfigFrame config' (Widgets.values self)).
  split; [|split; [done|]].
  - unfold Widgets.parse_config. unfold bind at 1. unfold gets at 1.
    rewrite Hkeys. unfold bind at 1. rewrite for_each_app.
    unfold bind at 1. rewrite Hrun. cbn [for_each]. unfold bind at 1.
    destruct (Hin key) as [option Hoption].
    { apply elem_of_app. right. by left. }
    assert (Hkey : is_Some (OrderedDict.get key config')).
    { rewrite Hget, Hoption. by eexists. }
    destruct Hkey as [option' Hoption'].
    by rewrite (parse_key_missing _ key option').
  - intros k option Hoption. simpl. by rewrite Hget, Hoption.
Qed.

End config_frame_props.

(** ** Drawing a frame, then applying it *)

Lemma elem_of_insert_sorted {A} (key : A → string) (x y : A) l :
  y ∈ Widgets.insert_sorted key x l ↔ y = x ∨ y ∈ l.
Proof.
  induction l as [|z l IH]; simpl.
  - rewrite list_elem_of_singleton, elem_of_nil. tauto.
  - destruct (String.ltb (key x) (key z)).
    + by rewrite elem_of_cons.
    + rewrite !elem_of_cons, IH. tauto.
Qed.

Lemma elem_of_sorted {A} (key : A → string) (y : A) l :
  y ∈ Widgets.sorted key l ↔ y ∈ l.
Proof.
  unfold Widgets.sorted.
  assert (Hgen : ∀ placed,
    y ∈ fold_left (λ placed x, Widgets.insert_sorted key x placed) l placed
    ↔ y ∈ l ∨ y ∈ placed).
  { induction l as [|x l IH]; intros placed; simpl.
    - rewrite elem_of_nil. tauto.
    - rewrite IH, elem_of_insert_sorted, elem_of_cons. tauto. }
  rewrite Hgen, elem_of_nil. tauto.
Qed.

(** The stable sort yields the same elements in a non-decreasing order of
    keys. *)
Lemma sorted_permutation {A} (key : A → string) (l : list A) :
  Widgets.sorted key l ≡ₚ l.
Proof.
  unfold Widgets.sorted.
  assert (Hins : ∀ x placed, Widgets.insert_sorted key x placed ≡ₚ x :: placed).
  { intros x placed. induction placed as [|z placed IH]; simpl; [done|].
    destruct (String.ltb (key x) (key z)); [done|].
    rewrite IH. apply Permutation_swap. }
  assert (Hgen : ∀ placed,
    fold_left (λ placed x, Widgets.insert_sorted key x placed) l placed
    ≡ₚ l ++ placed).
  { induction l as [|x l IH]; intros placed; simpl; [done|].
    rewrite IH, Hins. by rewrite Permutation_middle. }
  rewrite Hgen. by rewrite app_nil_r.
Qed.

Lemma for_each_modify {St A} (f : A → St → St) (l : list A) (s : St) :
  for_each l (λ x, modify (f x)) s = (inr tt, fold_left (λ s x, f x s) l s).
Proof.
  revert s. induction l as [|x l IH]; intros s; [done|].
  cbn [for_each]. unfold bind, modify at 1. simpl. apply IH.
Qed.

Section draw_config_facts.
Context {T : Type} `{EqDecision T} (BOOL STRING FLOAT : T).
Context (UINT8 UINT16 UINT32 UINT64 INT8 INT16 INT32 INT64 : T).
Implicit Types (self : Widgets.ConfigFrame T) (option : Widgets.ConfigOption T).

Local Abbreviation initial_content :=
  (Widgets.initial_content BOOL STRING FLOAT
     UINT8 UINT16 UINT32 UINT64 INT8 INT16 INT32 INT64).
Local Abbreviation draw_config :=
  (Widgets.draw_config BOOL STRING FLOAT
     UINT8 UINT16 UINT32 UINT64 INT8 INT16 INT32 INT64).
Local Abbreviation INT_TYPES :=
  (Widgets.INT_TYPES UINT8 UINT16 UINT32 UINT64 INT8 INT16 INT32 INT64).

(** The groups hold the options of the frame, each under its group. *)
Lemma group_options_elem (config : OrderedDict.t string (Widgets.ConfigOption T))
    group_name option :
  option ∈ default [] (OrderedDict.get group_name (Widgets.group_options config))
  ↔ ∃ key, OrderedDict.get key config = Some option
           ∧ Widgets.group option = group_name.
Proof.
  unfold Widgets.group_options.
  assert (Hgen : ∀ keys group_mapping,
    option ∈ default []
      (OrderedDict.get group_name
         (fold_left (λ group_mapping key,
            match OrderedDict.get key config with
            | Some option =>
                let group_name := Widgets.group option in
                let group :=
                  default [] (OrderedDict.get group_name group_mapping) in
                OrderedDict.setitem group_name (group ++ [option]) group_mapping
            | None => group_mapping
            end) keys group_mapping))
    ↔ option ∈ default [] (OrderedDict.get group_name group_mapping)
      ∨ ∃ key, key ∈ keys ∧ OrderedDict.get key config = Some option
               ∧ Widgets.group option = group_name).
  { induction keys as [|k keys IH]; intros group_mapping.
    - simpl. split; [by left|]. intros [?|(key & ?%elem_of_nil & _)]; done.
    - cbn [fold_left]. rewrite IH. clear IH.
      destruct (OrderedDict.get k config) as [o|] eqn:Hk.
      + cbn zeta. rewrite get_setitem.
        destruct (decide (Widgets.group o = group_name)) as [Hg|Hg].
        * simpl. rewrite elem_of_app, list_elem_of_singleton. split.
          -- intros [[? | ->] | (key & Hin & Hget & Hgroup)].
             ++ left. by rewrite <- Hg.
             ++ right. exists k. split; [by left|done].
             ++ right. exists key. split; [by right|done].
          -- intros [?|(key & [->|Hin]%elem_of_cons & Hget & Hgroup)].
             ++ left. left. by rewrite Hg.
             ++ left. right. congruence.
             ++ right. by exists key.
        * split.
          -- intros [?|(key & Hin & Hget & Hgroup)]; [by left|].
             right. exists key. split; [by right|done].
          -- intros [?|(key & [->|Hin]%elem_of_cons & Hget & Hgroup)].
             ++ by left.
             ++ congruence.
             ++ right. by exists key.
      + split.
        * intros [?|(key & Hin & Hget & Hgroup)]; [by left|].
          right. exists key. split; [by right|done].
        * intros [?|(key & [->|Hin]%elem_of_cons & Hget & Hgroup)].
          -- by left.
          -- congruence.
          -- right. by exists key. }
  rewrite Hgen. simpl. rewrite elem_of_nil. split.
  - intros [[]|(key & _ & Hget & Hgroup)]. by exists key.
  - intros (key & Hget & Hgroup). right. exists key.
    split; [|done]. apply get_is_Some. by rewrite Hget.
Qed.

(** The variables after a list of options has been drawn. *)
Lemma drawn_values (options : list (Widgets.ConfigOption T)) self name :
  let self' :=
    fold_left (λ self option,
      Widgets.with_values
        (OrderedDict.setitem (Widgets.name option) (initial_content option))
        self) options self in
  Widgets.config self' = Widgets.config self
  ∧ OrderedDict.get name (Widgets.values self')
    = match last (filter (λ option, Widgets.name option = name) options) with
      | Some option => Some (initial_content option)
      | None => OrderedDict.get name (Widgets.values self)
      end.
Proof.
  induction options as [|option options IH] using rev_ind; [done|].
  rewrite fold_left_app. cbn [fold_left]. simpl.
  destruct IH as [IHc IHv]. split; [done|].
  rewrite get_setitem, filter_app, filter_cons, filter_nil.
  destruct (decide (Widgets.name option = name)) as [Hn|Hn].
  - by rewrite last_snoc.
  - by rewrite app_nil_r.
Qed.

Lemma draw_config_run self :
  draw_config self
  = (inr tt,
     fold_left (λ self option,
       Widgets.with_values
         (OrderedDict.setitem (Widgets.name option) (initial_content option))
         self)
       (Widgets.sorted id
          (OrderedDict.keys (Widgets.group_options (Widgets.config self)))
        ≫= λ group_name,
             Widgets.sorted Widgets.name
               (default []
                  (OrderedDict.get group_name
                     (Widgets.group_options (Widgets.config self)))))
       self).
Proof.
  unfold Widgets.draw_config. unfold bind at 1. unfold gets at 1.
  generalize (Widgets.group_options (Widgets.config self)) as group_mapping.
  intros group_mapping.
  assert (Hgen : ∀ group_names self0,
    (∀ g, g ∈ group_names → is_Some (OrderedDict.get g group_mapping)) →
    for_each group_names (λ group_name,
      let! group := Widgets.getitem T group_name group_mapping in
      for_each (Widgets.sorted Widgets.name group) (λ option,
        let value := initial_content option in
        modify (Widgets.with_values
                  (OrderedDict.setitem (Widgets.name option) value)))) self0
    = (inr tt,
       fold_left (λ self option,
         Widgets.with_values
           (OrderedDict.setitem (Widgets.name option) (initial_content option))
           self)
         (group_names ≫= λ group_name,
            Widgets.sorted Widgets.name
              (default [] (OrderedDict.get group_name group_mapping)))
         self0)).
  { induction group_names as [|g group_names IH]; intros self0 Hgroups;
      [done|].
    cbn [for_each]. destruct (Hgroups g) as [group Hgroup]; [by left|].
    unfold bind at 1. unfold bind at 1. unfold Widgets.getitem at 1.
    rewrite Hgroup. unfold ret at 1.
    rewrite (for_each_modify
               (λ option,
                  Widgets.with_values
                    (OrderedDict.setitem (Widgets.name option)
                       (initial_content option)))).
    rewrite IH by (intros g' Hin; apply Hgroups; by right).
    f_equal. cbn [mbind list_bind]. rewrite fold_left_app.
    by rewrite Hgroup. }
  apply Hgen. intros g Hin. apply get_is_Some. by apply elem_of_sorted in Hin.
Qed.

(** X30: when every option of the frame is stored under its own name,
    [draw_config] gives every option a variable, and a [parse_config] right
    after it (a dialog opened and applied with no edit) returns, for every
    key: 1 or 0 for a boolean option, 1 only for the value 1; the value of
    the option unchanged when the option has choices or is of string, integer
    or float type; and the empty string for an option of any other type,
    whose value is lost. *)
Theorem draw_config_then_parse_config self :
  (∀ key option,
     OrderedDict.get key (Widgets.config self) = Some option →
     Widgets.name option = key) →
  ∃ result self',
    (draw_config >>> Widgets.parse_config BOOL) self = (inr result, self')
    ∧ ∀ key option,
        OrderedDict.get key (Widgets.config self) = Some option →
        OrderedDict.get key result
        = Some (if decide (Widgets.type option = BOOL) then
                  if decide (Widgets.value option = "1") then "1" else "0"
                else if bool_decide
                          (Widgets.select option ≠ []
                           ∨ Widgets.type option = STRING
                           ∨ Widgets.type option ∈ INT_TYPES
                           ∨ Widgets.type option = FLOAT)
                then Widgets.value option
                else "").
Proof.
  intros Hnames.
  set (drawn :=
    Widgets.sorted id
      (OrderedDict.keys (Widgets.group_options (Widgets.config self)))
    ≫= λ group_name,
         Widgets.sorted Widgets.name
           (default []
              (OrderedDict.get group_name
                 (Widgets.group_options (Widgets.config self))))).
  assert (Hdrawn : ∀ option,
    option ∈ drawn
    ↔ ∃ key, OrderedDict.get key (Widgets.config self) = Some option).
  { intros option. unfold drawn. rewrite list_elem_of_bind. split.
    - intros (g & Hin & _). apply elem_of_sorted in Hin.
      apply group_options_elem in Hin as (key & Hget & _). by exists key.
    - intros (key & Hget). exists (Widgets.group option). split.
      + apply elem_of_sorted, group_options_elem. by exists key.
      + apply elem_of_sorted, get_is_Some.
        assert (Hin : option ∈ default []
          (OrderedDict.get (Widgets.group option)
             (Widgets.group_options (Widgets.config self)))).
        { apply group_options_elem. by exists key. }
        destruct (OrderedDict.get (Widgets.group option)
                    (Widgets.group_options (Widgets.config self)));
          [done|by apply elem_of_nil in Hin]. }
  set (self1 := fold_left (λ self option,
         Widgets.with_values
           (OrderedDict.setitem (Widgets.name option) (initial_content option))
           self) drawn self).
  assert (Hvalues : ∀ key option,
    OrderedDict.get key (Widgets.config self) = Some option →
    OrderedDict.get key (Widgets.values self1)
    = Some (initial_content option)).
  { intros key option Hget. unfold self1.
    destruct (drawn_values drawn self key) as [_ ->].
    destruct (last (filter (λ o, Widgets.name o = key) drawn))
      as [found|] eqn:Hlast.
    - apply last_Some_elem_of, list_elem_of_filter in Hlast as [Hname Hin].
      apply Hdrawn in Hin as (key' & Hget').
      rewrite (Hnames _ _ Hget') in Hname. subst key'. congruence.
    - apply last_None in Hlast.
      assert (Hin : option ∈ filter (λ o, Widgets.name o = key) drawn).
      { apply list_elem_of_filter. split; [by apply Hnames|].
        apply Hdrawn. by exists key. }
      rewrite Hlast in Hin. by apply elem_of_nil in Hin. }
  assert (Hconfig : Widgets.config self1 = Widgets.config self).
  { unfold self1. by destruct (drawn_values drawn self ""). }
  destruct (parse_config_run BOOL self1) as (config' & Hparse & Hget & _).
  { intros key Hin. rewrite Hconfig in Hin. apply get_is_Some in Hin
      as [option Hoption]. by rewrite (Hvalues key option). }
  eexists _, _. split.
  { unfold bind. rewrite draw_config_run. exact Hparse. }
  intros key option Hoption.
  rewrite get_comprehension, Hget, Hconfig, Hoption. simpl.
  rewrite (Hvalues key option Hoption). simpl. f_equal.
  unfold parsed, Widgets.initial_content.
  destruct (decide (Widgets.type option = BOOL)) as [Hb|Hb].
  { by repeat case_decide. }
  repeat case_bool_decide; repeat case_decide; try done; tauto.
Qed.

End draw_config_facts.

(** ** The three frame methods on an example *)

Example config_frame_example :
  let draw := Widgets.draw_config EX_BOOL EX_STRING EX_FLOAT EX_UINT8
                EX_UINT16 EX_UINT32 EX_UINT64 EX_INT8 EX_INT16 EX_INT32
                EX_INT64 in
  (Widgets.parse_config EX_BOOL example_frame).1
  = inr [("enabled", "1"); ("script", "run.sh"); ("legacy", "")]
  ∧ Widgets.values (draw example_frame_new).2
    = [("legacy", ""); ("enabled", "Off"); ("script", "")]
  ∧ ((draw >>> Widgets.parse_config EX_BOOL) example_frame_new).1
    = inr [("enabled", "0"); ("script", ""); ("legacy", "")]
  ∧ ((Widgets.set_values EX_BOOL [("enabled", "1"); ("script", "go.sh")]
      >>> Widgets.parse_config EX_BOOL) example_frame).1
    = inr [("enabled", "1"); ("script", "go.sh"); ("legacy", "")]
  ∧ (Widgets.set_values EX_BOOL [("script", "go.sh"); ("missing", "1")]
       example_frame).1
    = inl (KeyError "missing").
Proof. repeat split; by vm_compute. Qed.

(** ** The properties of the frame on the example *)

Ltac each_key Hin :=
  cbn in Hin;
  repeat (apply elem_of_cons in Hin as [-> | Hin]);
  [.. | by apply elem_of_nil in Hin].

Lemma example_frame_variables key :
  key ∈ OrderedDict.keys (Widgets.config example_frame) →
  is_Some (OrderedDict.get key (Widgets.config example_frame))
  ∧ is_Some (OrderedDict.get key (Widgets.values example_frame)).
Proof. intros Hin. each_key Hin; split; by eexists. Defined.

Lemma parse_config_reads_variables_witness :
  (∀ key, key ∈ OrderedDict.keys (Widgets.config example_frame) →
     is_Some (OrderedDict.get key (Widgets.values example_frame)))
  ∧ ∃ result self',
      Widgets.parse_config EX_BOOL example_frame = (inr result, self')
      ∧ OrderedDict.get "enabled" result = Some "1"
      ∧ OrderedDict.get "script" result = Some "run.sh"
      ∧ Widgets.parse_config EX_BOOL self' = (inr result, self').
Proof.
  assert (Hvars : ∀ key,
            key ∈ OrderedDict.keys (Widgets.config example_frame) →
            is_Some (OrderedDict.get key (Widgets.values example_frame))).
  { intros key Hin. by apply example_frame_variables. }
  split; [exact Hvars|].
  destruct (parse_config_reads_variables EX_BOOL example_frame Hvars)
    as (result & self' & Hrun & _ & Hget & _ & Hagain).
  exists result, self'. split; [exact Hrun|].
  destruct (Hget "enabled" _ eq_refl) as (on & Hon & Henabled & _).
  destruct (Hget "script" _ eq_refl) as (file & Hfile & Hscript & _).
  injection Hon as <-. injection Hfile as <-.
  split; [exact Henabled|]. split; [exact Hscript|]. exact Hagain.
Defined.

Lemma set_values_writes_variables_witness :
  NoDup (OrderedDict.keys [("enabled", "0"); ("script", "go.sh")])
  ∧ (∀ name,
       name ∈ OrderedDict.keys [("enabled", "0"); ("script", "go.sh")] →
       is_Some (OrderedDict.get name (Widgets.config example_frame))
       ∧ is_Some (OrderedDict.get name (Widgets.values example_frame)))
  ∧ ∃ self',
      Widgets.set_values EX_BOOL [("enabled", "0"); ("script", "go.sh")]
        example_frame = (inr tt, self')
      ∧ OrderedDict.get "enabled" (Widgets.values self') = Some "Off"
      ∧ OrderedDict.get "script" (Widgets.values self') = Some "go.sh"
      ∧ OrderedDict.get "legacy" (Widgets.values self') = Some "".
Proof.
  assert (Hnodup :
            NoDup (OrderedDict.keys [("enabled", "0"); ("script", "go.sh")])).
  { by apply (bool_decide_unpack _). }
  assert (Hnames : ∀ name,
            name ∈ OrderedDict.keys [("enabled", "0"); ("script", "go.sh")] →
            is_Some (OrderedDict.get name (Widgets.config example_frame))
            ∧ is_Some (OrderedDict.get name (Widgets.values example_frame))).
  { intros name Hin. each_key Hin; split; by eexists. }
  split; [exact Hnodup|]. split; [exact Hnames|].
  destruct (set_values_writes_variables EX_BOOL example_frame _ Hnodup Hnames)
    as (self' & Hrun & _ & Hset & Hkept).
  exists self'. split; [exact Hrun|].
  split; [exact (Hset "enabled" _ _ eq_refl eq_refl)|].
  split; [exact (Hset "script" _ _ eq_refl eq_refl)|].
  exact (Hkept "legacy" eq_refl).
Defined.

Lemma set_values_then_parse_config_witness :
  NoDup (OrderedDict.keys [("enabled", "yes"); ("script", "go.sh")])
  ∧ (∀ name,
       name ∈ OrderedDict.keys [("enabled", "yes"); ("script", "go.sh")] →
       is_Some (OrderedDict.get name (Widgets.config example_frame)))
  ∧ (∀ key, key ∈ OrderedDict.keys (Widgets.config example_frame) →
       is_Some (OrderedDict.get key (Widgets.values example_frame)))
  ∧ ∃ result self',
      (Widgets.set_values EX_BOOL [("enabled", "yes"); ("script", "go.sh")]
       >>> Widgets.parse_config EX_BOOL) example_frame = (inr result, self')
      ∧ OrderedDict.get "enabled" result = Some "0"
      ∧ OrderedDict.get "script" result = Some "go.sh".
Proof.
  assert (Hnodup :
            NoDup (OrderedDict.keys [("enabled", "yes"); ("script", "go.sh")])).
  { by apply (bool_decide_unpack _). }
  assert (Hnames : ∀ name,
            name ∈ OrderedDict.keys [("enabled", "yes"); ("script", "go.sh")] →
            is_Some (OrderedDict.get name (Widgets.config example_frame))).
  { intros name Hin. each_key Hin; by eexists. }
  assert (Hvars : ∀ key,
            key ∈ OrderedDict.keys (Widgets.config example_frame) →
            is_Some (OrderedDict.get key (Widgets.values example_frame))).
  { intros key Hin. by apply example_frame_variables. }
  split; [exact Hnodup|]. split; [exact Hnames|]. split; [exact Hvars|].
  destruct (set_values_then_parse_config EX_BOOL example_frame _
              Hnodup Hnames Hvars) as (result & self' & Hrun & Hget).
  exists result, self'. split; [exact Hrun|].
  split; [exact (Hget "enabled" _ _ eq_refl eq_refl)|].
  exact (Hget "script" _ _ eq_refl eq_refl).
Defined.

Lemma set_values_unknown_name_witness :
  (∀ n, n ∈ OrderedDict.keys [("script", "go.sh")] →
     is_Some (OrderedDict.get n (Widgets.config example_frame))
     ∧ is_Some (OrderedDict.get n (Widgets.values example_frame)))
  ∧ OrderedDict.get "missing" (Widgets.config example_frame) = None
  ∧ ∃ self',
      Widgets.set_values EX_BOOL
        ([("script", "go.sh")] ++ ("missing", "1") :: [("enabled", "1")])
        example_frame = (inl (KeyError "missing"), self')
      ∧ Widgets.set_values EX_BOOL [("script", "go.sh")] example_frame
        = (inr tt, self').
Proof.
  assert (Hbefore : ∀ n,
            n ∈ OrderedDict.keys [("script", "go.sh")] →
            is_Some (OrderedDict.get n (Widgets.config example_frame))
            ∧ is_Some (OrderedDict.get n (Widgets.values example_frame))).
  { intros n Hin. each_key Hin; split; by eexists. }
  split; [exact Hbefore|]. split; [reflexivity|].
  exact (set_values_unknown_name EX_BOOL example_frame _ "missing" "1"
           [("enabled", "1")] Hbefore eq_refl).
Defined.

Lemma parse_config_missing_variable_witness :
  OrderedDict.keys (Widgets.config example_frame_new)
  = [] ++ "enabled" :: ["script"; "legacy"]
  ∧ (∀ k, k ∈ [] →
       is_Some (OrderedDict.get k (Widgets.values example_frame_new)))
  ∧ OrderedDict.get "enabled" (Widgets.values example_frame_new) = None
  ∧ ∃ self',
      Widgets.parse_config EX_BOOL example_frame_new
      = (inl (KeyError "enabled"), self')
      ∧ Widgets.values self' = Widgets.values example_frame_new.
Proof.
  assert (Hbefore : ∀ k : string, k ∈ [] →
            is_Some (OrderedDict.get k (Widgets.values example_frame_new))).
  { intros k Hin. by apply elem_of_nil in Hin. }
  split; [reflexivity|]. split; [exact Hbefore|]. split; [reflexivity|].
  destruct (parse_config_missing_variable EX_BOOL example_frame_new []
              "enabled" ["script"; "legacy"] eq_refl Hbefore eq_refl)
    as (self' & Hrun & Hvalues & _).
  exists self'. by split.
Defined.

Lemma draw_config_then_parse_config_witness :
  (∀ key option,
     OrderedDict.get key (Widgets.config example_frame_new) = Some option →
     Widgets.name option = key)
  ∧ ∃ result self',
      (Widgets.draw_config EX_BOOL EX_STRING EX_FLOAT EX_UINT8 EX_UINT16
         EX_UINT32 EX_UINT64 EX_INT8 EX_INT16 EX_INT32 EX_INT64
       >>> Widgets.parse_config EX_BOOL) example_frame_new
      = (inr result, self')
      ∧ OrderedDict.get "enabled" result = Some "0"
      ∧ OrderedDict.get "script" result = Some ""
      ∧ OrderedDict.get "legacy" result = Some "".
Proof.
  assert (Hnames : ∀ key option,
            OrderedDict.get key (Widgets.config example_frame_new)
            = Some option →
            Widgets.name option = key).
  { intros key option. cbn. repeat case_decide; by intros [= <-]. }
  split; [exact Hnames|].
  destruct (draw_config_then_parse_config EX_BOOL EX_STRING EX_FLOAT
              EX_UINT8 EX_UINT16 EX_UINT32 EX_UINT64 EX_INT8 EX_INT16
              EX_INT32 EX_INT64 example_frame_new Hnames)
    as (result & self' & Hrun & Hget).
  exists result, self'. split; [exact Hrun|].
  split; [exact (Hget "enabled" _ eq_refl)|].
  split; [exact (Hget "script" _ eq_refl)|].
  exact (Hget "legacy" _ eq_refl).
Defined.
